(** * chainparser: a shallow embedding of the account decoder, the
    discriminators and the IDL container codec, with the properties of its
    specification.

    Bytes are [Z] values in [0, 255]; byte buffers ([&[u8]]) are [list Z].
    Machine sizes ([usize]) are [nat]. *)

From stdpp Require Import base gmap strings list sorting.
From Stdlib Require Import ZArith Lia.
From Stdlib Require Ascii String.

Open Scope Z_scope.
Open Scope list_scope.
Set Warnings "-register-all".

(* ================================================================= *)
(** ** SHA-256 ([solana_sdk::hash::hash]) *)
(* ================================================================= *)

Module Sha256.

(** The round constants and the initial hash value (FIPS 180-4, 4.2.2 and
    5.3.3): the first 32 bits of the fractional parts of the cube roots of
    the first 64 primes and of the square roots of the first 8 primes. *)
Definition is_prime (n : nat) : bool :=
  (2 <=? n)%nat && forallb (fun d => negb (n mod d =? 0)%nat) (seq 2 (n - 2)).

Definition first_primes (count : nat) : list Z :=
  map Z.of_nat (firstn count (List.filter is_prime (seq 0 320))).

(** The integer cube root, by bisection on [[lo, hi)]. *)
Fixpoint icbrt_search (steps : nat) (n lo hi : Z) : Z :=
  match steps with
  | O => lo
  | S k =>
      let mid := (lo + hi) / 2 in
      if mid * mid * mid <=? n then icbrt_search k n mid hi else icbrt_search k n lo mid
  end.

Definition icbrt (n : Z) : Z := icbrt_search 64 n 0 (2 ^ 40).

Definition frac32 (root : Z -> Z) (shift : Z) (p : Z) : Z :=
  root (p * 2 ^ shift) mod 2 ^ 32.

Definition K : list Z := Eval vm_compute in map (frac32 icbrt 96) (first_primes 64).

Definition H0 : list Z := Eval vm_compute in map (frac32 Z.sqrt 64) (first_primes 8).

Definition mask32 : Z := 0xffffffff.
Definition add32 (x y : Z) : Z := (x + y) mod 4294967296.
Definition rotr (x n : Z) : Z :=
  Z.lor (Z.shiftr x n) (Z.land (Z.shiftl x (32 - n)) mask32).
Definition notw (x : Z) : Z := Z.lxor x mask32.

Definition ch (x y z : Z) : Z := Z.lxor (Z.land x y) (Z.land (notw x) z).
Definition maj (x y z : Z) : Z := Z.lxor (Z.lxor (Z.land x y) (Z.land x z)) (Z.land y z).
Definition bsig0 (x : Z) : Z := Z.lxor (Z.lxor (rotr x 2) (rotr x 13)) (rotr x 22).
Definition bsig1 (x : Z) : Z := Z.lxor (Z.lxor (rotr x 6) (rotr x 11)) (rotr x 25).
Definition ssig0 (x : Z) : Z := Z.lxor (Z.lxor (rotr x 7) (rotr x 18)) (Z.shiftr x 3).
Definition ssig1 (x : Z) : Z := Z.lxor (Z.lxor (rotr x 17) (rotr x 19)) (Z.shiftr x 10).

(** Big-endian words of a byte list, four bytes at a time. *)
Fixpoint be_words (l : list Z) : list Z :=
  match l with
  | b0 :: b1 :: b2 :: b3 :: rest =>
      (((b0 * 256 + b1) * 256 + b2) * 256 + b3) :: be_words rest
  | _ => []
  end.

Definition be_bytes (w : Z) (n : nat) : list Z :=
  map (fun i => Z.land (Z.shiftr w (8 * Z.of_nat (n - 1 - i))) 255) (seq 0 n).

(** Message schedule: 16 words extended to 64. *)
Fixpoint schedule (n : nat) (w : list Z) : list Z :=
  match n with
  | O => w
  | S n' =>
      let t := length w in
      let wt := add32 (add32 (ssig1 (nth (t - 2) w 0)) (nth (t - 7) w 0))
                      (add32 (ssig0 (nth (t - 15) w 0)) (nth (t - 16) w 0)) in
      schedule n' (w ++ [wt])
  end.

Definition round (st : list Z) (kw : Z * Z) : list Z :=
  match st with
  | [a; b; c; d; e; f; g; h] =>
      let t1 := add32 (add32 (add32 h (bsig1 e)) (add32 (ch e f g) kw.1)) kw.2 in
      let t2 := add32 (bsig0 a) (maj a b c) in
      [add32 t1 t2; a; b; c; add32 d t1; e; f; g]
  | _ => st
  end.

Definition compress (h : list Z) (block : list Z) : list Z :=
  let w := schedule 48 (be_words block) in
  let st := fold_left round (zip K w) h in
  zip_with add32 h st.

Fixpoint blocks (fuel : nat) (l : list Z) : list (list Z) :=
  match fuel with
  | O => []
  | S f => match l with [] => [] | _ => take 64 l :: blocks f (drop 64 l) end
  end.

Definition pad (msg : list Z) : list Z :=
  let len := Z.of_nat (length msg) in
  let k := Z.to_nat ((55 - len) mod 64) in
  msg ++ [128] ++ replicate k 0 ++ be_bytes (8 * len) 8.

Definition hash (msg : list Z) : list Z :=
  let p := pad msg in
  let h := fold_left compress (blocks (length p) p) H0 in
  concat (map (fun w => be_bytes w 4) h).

End Sha256.

Definition bytes_of_string (s : string) : list Z :=
  map (fun a => Z.of_nat (Ascii.nat_of_ascii a)) (String.list_ascii_of_string s).

(* ================================================================= *)
(** ** Account and instruction discriminators *)
(* ================================================================= *)

(** [DiscriminatorBytes = [u8; 8]] *)
Definition DiscriminatorBytes := list Z.

(** [discriminator::account_discriminator]:
    [hash(format!("account:{name}"))[..8]]. *)
Definition account_discriminator (name : string) : DiscriminatorBytes :=
  take 8 (Sha256.hash (bytes_of_string ("account:" ++ name)%string)).

(** [discriminator::discriminator_from_data]: [data[..8]] (callers
    check the length first). *)
Definition discriminator_from_data (data : list Z) : DiscriminatorBytes :=
  take 8 data.

(** [heck::ToSnakeCase::to_snake_case] (external crate), on ASCII input.
    The input is split on non-alphanumeric characters; inside each piece a
    word boundary falls after a non-uppercase cased character followed by an
    uppercase one, and before an uppercase character that follows an
    uppercase one and precedes a lowercase one.  Words are lowercased and
    joined with [_]. *)
Module Heck.

Inductive WordMode := Boundary | Lowercase | Uppercase.

Definition is_lower (c : Ascii.ascii) : bool :=
  let n := Ascii.nat_of_ascii c in (97 <=? n)%nat && (n <=? 122)%nat.
Definition is_upper (c : Ascii.ascii) : bool :=
  let n := Ascii.nat_of_ascii c in (65 <=? n)%nat && (n <=? 90)%nat.
Definition is_digit (c : Ascii.ascii) : bool :=
  let n := Ascii.nat_of_ascii c in (48 <=? n)%nat && (n <=? 57)%nat.
Definition is_alphanumeric (c : Ascii.ascii) : bool :=
  is_lower c || is_upper c || is_digit c.
Definition to_lower (c : Ascii.ascii) : Ascii.ascii :=
  if is_upper c then Ascii.ascii_of_nat (Ascii.nat_of_ascii c + 32) else c.

Definition mode_eqb (m1 m2 : WordMode) : bool :=
  match m1, m2 with
  | Boundary, Boundary | Lowercase, Lowercase | Uppercase, Uppercase => true
  | _, _ => false
  end.

(** Emitting a word: a boundary [_] unless it is the first word. *)
Definition emit (first_word : bool) (w : list Ascii.ascii) (out : list Ascii.ascii)
  : list Ascii.ascii :=
  out ++ (if first_word then [] else [Ascii.ascii_of_nat 95]) ++ map to_lower w.

(** The scan of one piece: [cur] holds the characters since [init]. *)
Fixpoint scan (cs : list Ascii.ascii) (cur : list Ascii.ascii) (mode : WordMode)
    (first_word : bool) (out : list Ascii.ascii) : bool * list Ascii.ascii :=
  match cs with
  | [] => (first_word, out)
  | c :: rest =>
      match rest with
      | next :: _ =>
          let next_mode :=
            if is_lower c then Lowercase else if is_upper c then Uppercase else mode in
          if mode_eqb next_mode Lowercase && is_upper next then
            scan rest [] Boundary false (emit first_word (cur ++ [c]) out)
          else if mode_eqb mode Uppercase && is_upper c && is_lower next then
            scan rest [c] Boundary false (emit first_word cur out)
          else scan rest (cur ++ [c]) next_mode first_word out
      | [] => (false, emit first_word (cur ++ [c]) out)
      end
  end.

(** [s.split(|c| !c.is_alphanumeric())] *)
Fixpoint split_pieces (cs : list Ascii.ascii) (cur : list Ascii.ascii)
  : list (list Ascii.ascii) :=
  match cs with
  | [] => [cur]
  | c :: rest =>
      if is_alphanumeric c then split_pieces rest (cur ++ [c])
      else cur :: split_pieces rest []
  end.

Definition to_snake_case (s : string) : string :=
  let pieces := split_pieces (String.list_ascii_of_string s) [] in
  let '(_, out) :=
    fold_left (fun '(fw, out) w => scan w [] Boundary fw out) pieces (true, []) in
  String.string_of_list_ascii out.

End Heck.

(** [solana_idl::IdlInstruction], with the fields the discriminator reads:
    the name and the optional [discriminant { value: u8, bytes:
    Option<Vec<u8>> }]. *)
Record IdlDiscriminant := { disc_value : Z; disc_bytes : option (list Z) }.
Record IdlInstruction := { ix_name : string; ix_discriminant : option IdlDiscriminant }.

Definition SIGHASH_GLOBAL_NAMESPACE : string := "global".

(** [ixs::discriminator::anchor_sighash] *)
Definition anchor_sighash (namespace ix_name : string) : list Z :=
  let ix_name := Heck.to_snake_case ix_name in
  let preimage := (namespace ++ ":" ++ ix_name)%string in
  take 8 (Sha256.hash (bytes_of_string preimage)).

(** [ixs::discriminator::discriminator_from_ix] *)
Definition discriminator_from_ix (ix : IdlInstruction) : list Z :=
  match ix_discriminant ix with
  | Some x => match disc_bytes x with Some b => b | None => [disc_value x] end
  | None => anchor_sighash SIGHASH_GLOBAL_NAMESPACE (ix_name ix)
  end.

(* ================================================================= *)
(** ** The IDL data model ([solana_idl]) *)
(* ================================================================= *)

(** [solana_idl::IdlType]; [IdlString] is [IdlType::String]. *)
Inductive IdlType :=
  | U8 | U16 | U32 | U64 | U128
  | I8 | I16 | I32 | I64 | I128
  | F32 | F64 | Bool | IdlString | Bytes | PublicKey
  | Array (inner : IdlType) (len : nat)
  | Vec (inner : IdlType)
  | Option (inner : IdlType)
  | COption (inner : IdlType)
  | Tuple (inners : list IdlType)
  | HashMap (k v : IdlType)
  | BTreeMap (k v : IdlType)
  | HashSet (inner : IdlType)
  | BTreeSet (inner : IdlType)
  | Defined (name : string).

Record IdlField := { field_name : string; field_ty : IdlType }.

(** [solana_idl::EnumFields]: [Named(fields)] or [Tuple(types)]. *)
Inductive EnumFields :=
  | Named (fields : list IdlField)
  | TupleFields (types : list IdlType).

Record IdlEnumVariant := { variant_name : string; variant_fields : option EnumFields }.

Inductive IdlTypeDefinitionTy :=
  | Struct (fields : list IdlField)
  | Enum (variants : list IdlEnumVariant).

Record IdlTypeDefinition := { def_name : string; def_ty : IdlTypeDefinitionTy }.

(** The [HashMap<String, &IdlTypeDefinitionTy>] of named types. *)
Abbreviation TypeMap := (gmap string IdlTypeDefinitionTy).

(* ================================================================= *)
(** ** Errors and outcomes *)
(* ================================================================= *)

(** [errors::ChainparserError], the variants the decoding paths raise.  The
    [std::io::Error] a borsh failure carries is left out: it is a function
    of the bytes, which the variants keep. *)
Inductive ChainparserError :=
  | BorshIoError
  | BorshDeserializeTypeError (kind : string) (bytes : list Z)
  | BorshDeserializeFloatError (kind : string) (bytes : list Z)
  | CompositeDeserializeError (context : string) (args : list nat) (inner : ChainparserError)
  | FieldDeserializeError (name : string) (inner : ChainparserError)
  | EnumVariantDeserializeError (name : string) (inner : ChainparserError)
  | StructDeserializeError (name : string) (inner : ChainparserError)
  | EnumDeserializeError (name : string) (inner : ChainparserError)
  | DeserializerDoesNotSupportType (de ty : string)
  | InvalidDataToDeserialize (ty msg : string) (bytes : list Z)
  | UnknownAccount (name : string)
  | UnknownDiscriminatedAccount (discriminator : list Z)
  | CannotFindDeserializerForAccount
  | CannotFindDefinedType (name : string)
  | InvalidEnumVariantDiscriminator (d : Z)
  | IdlContainerShouldContainZlibData
  | ParseJsonError
  | AccountDataTooShortForDiscriminatorBytes (have need : nat).

(** A Rust call either returns [Ok], returns [Err], or panics (an
    out-of-range slice, or unbounded recursion when the fuel runs out). *)
Inductive Outcome (A : Type) :=
  | Ok (a : A)
  | Err (e : ChainparserError)
  | Panic.
Arguments Ok {A} a.
Arguments Err {A} e.
Arguments Panic {A}.

(* ================================================================= *)
(** ** The size oracle ([idl::idl_type_bytes], [idl::idl_def_bytes]) *)
(* ================================================================= *)

(** [idl_type_bytes], for a given resolver of named definitions. *)
Fixpoint idl_type_bytes_with (def_bytes : IdlTypeDefinitionTy -> option nat)
    (ty : IdlType) (type_map : option TypeMap) : option nat :=
  match ty with
  | U8 => Some 1%nat | U16 => Some 2%nat | U32 => Some 4%nat
  | U64 => Some 8%nat | U128 => Some 16%nat
  | I8 => Some 1%nat | I16 => Some 2%nat | I32 => Some 4%nat
  | I64 => Some 8%nat | I128 => Some 16%nat
  | F32 => Some 4%nat | F64 => Some 8%nat
  | Bool => Some 1%nat
  | PublicKey => Some 32%nat
  | Array inner len =>
      option_map (fun x => x * len)%nat (idl_type_bytes_with def_bytes inner type_map)
  | COption inner =>
      option_map (fun x => x + 4)%nat (idl_type_bytes_with def_bytes inner type_map)
  | Defined s =>
      match type_map with
      | Some map => match map !! s with Some ty => def_bytes ty | None => None end
      | None => None
      end
  | _ => None
  end.

(** The loop of the [Struct] arm: [struct_size += size], or [return None]. *)
Fixpoint struct_size_loop (size_of : IdlType -> option nat) (fields : list IdlField)
    (struct_size : nat) : option nat :=
  match fields with
  | [] => Some struct_size
  | field :: rest =>
      match size_of (field_ty field) with
      | Some size => struct_size_loop size_of rest (struct_size + size)
      | None => None
      end
  end.

(** [idl_def_bytes].  The source recurses through [Defined] names without
    bound (a definition that contains itself overflows the stack); the
    [fuel] counts the resolved names, and running out of it yields [None]. *)
Fixpoint idl_def_bytes (fuel : nat) (ty : IdlTypeDefinitionTy)
    (type_map : option TypeMap) : option nat :=
  match fuel with
  | O => None
  | S f =>
      match ty with
      | Struct fields =>
          struct_size_loop
            (fun t => idl_type_bytes_with (fun d => idl_def_bytes f d type_map) t type_map)
            fields 0
      | Enum variants =>
          if forallb (fun variant => match variant_fields variant with
                                     | None => true | Some _ => false end) variants
          then Some 1%nat
          else None
      end
  end.

Definition idl_type_bytes (fuel : nat) (ty : IdlType) (type_map : option TypeMap)
  : option nat :=
  idl_type_bytes_with (fun d => idl_def_bytes fuel d type_map) ty type_map.

(* ================================================================= *)
(** ** The structural discriminator ([discriminator::match_discriminator]) *)
(* ================================================================= *)

(** [array_ref![buf, offset, len]]: the slice [buf[offset..offset+len]],
    a panic when it is out of range. *)
Definition array_ref (buf : list Z) (offset len : nat) : option (list Z) :=
  if (offset + len <=? length buf)%nat then Some (take len (drop offset buf)) else None.

Inductive Matcher :=
  | MCOption (offset inner_size : nat)
  | MBool (offset : nat).

Section Structural.

(** Fuel of the size oracle, see [idl_def_bytes]. *)
Variable fuel : nat.

(** [impl TryFrom<(&IdlType, &HashMap, usize)> for Matcher] *)
Definition matcher_try_from (ty : IdlType) (type_map : TypeMap) (offset : nat)
  : option Matcher :=
  match ty with
  | COption inner =>
      let inner_size := default 0%nat (idl_type_bytes fuel inner (Some type_map)) in
      Some (MCOption offset inner_size)
  | Bool => Some (MBool offset)
  | _ => None
  end.

(** [Matcher::matches]; [None] is the panic of [array_ref!]. *)
Definition matcher_matches (m : Matcher) (buf : list Z) : option bool :=
  match m with
  | MCOption offset _ =>
      src ← array_ref buf offset 4;
      Some (bool_decide (src = [1; 0; 0; 0]) || bool_decide (src = [0; 0; 0; 0]))
  | MBool offset =>
      src ← array_ref buf offset 1;
      Some (bool_decide (src = [0]) || bool_decide (src = [1]))
  end.

Record MatchDiscriminator := {
  account : IdlTypeDefinition;
  min_total_size : nat;
  matchers : list Matcher
}.

(** The loop of [base_account_sizes]: a field of known size pushes its
    offset and its size; a field of unknown size is passed over. *)
Fixpoint sizes_loop (type_map : TypeMap) (fields : list IdlField) (offset : nat)
    (sizes offsets : list nat) : list nat * list nat :=
  match fields with
  | [] => (sizes, offsets)
  | field :: rest =>
      match idl_type_bytes fuel (field_ty field) (Some type_map) with
      | Some size => sizes_loop type_map rest (offset + size) (sizes ++ [size]) (offsets ++ [offset])
      | None => sizes_loop type_map rest offset sizes offsets
      end
  end.

(** [base_account_sizes]: [Some((sizes, offsets))] for a struct. *)
Definition base_account_sizes (acc : IdlTypeDefinition) (type_map : TypeMap)
  : option (list nat * list nat) :=
  match def_ty acc with
  | Struct fields => Some (sizes_loop type_map fields 0 [] [])
  | Enum _ => None
  end.

(** [account_matchers]: [fields.iter().zip(offsets)], keeping the
    [Ok] results of [Matcher::try_from]. *)
Definition account_matchers (acc : IdlTypeDefinition) (type_map : TypeMap)
    (offsets : list nat) : list Matcher :=
  match def_ty acc with
  | Struct fields =>
      omap (fun '(field, offset) => matcher_try_from (field_ty field) type_map offset)
           (zip fields offsets)
  | Enum _ => []
  end.

(** [MatchDiscriminator::new] *)
Definition MatchDiscriminator_new (acc : IdlTypeDefinition) (type_map : TypeMap)
  : option MatchDiscriminator :=
  match base_account_sizes acc type_map with
  | Some (field_sizes, field_offsets) =>
      let min_total_size := sum_list_with id field_sizes in
      let matchers := account_matchers acc type_map field_offsets in
      match matchers with
      | [] => None
      | _ => Some {| account := acc; min_total_size := min_total_size; matchers := matchers |}
      end
  | None => None
  end.

(** [slice::sort_by_key(|f| f.min_total_size)], a stable sort: written as
    an insertion sort, which gives the same result. *)
Fixpoint insert_by_size (d : MatchDiscriminator) (ds : list MatchDiscriminator)
  : list MatchDiscriminator :=
  match ds with
  | [] => [d]
  | d' :: rest =>
      if (min_total_size d <=? min_total_size d')%nat then d :: d' :: rest
      else d' :: insert_by_size d rest
  end.

Fixpoint sort_by_min_total_size (ds : list MatchDiscriminator) : list MatchDiscriminator :=
  match ds with
  | [] => []
  | d :: rest => insert_by_size d (sort_by_min_total_size rest)
  end.

(** [impl From<(&[IdlTypeDefinition], &HashMap)> for MatchDiscriminators] *)
Definition MatchDiscriminators_from (accounts : list IdlTypeDefinition) (type_map : TypeMap)
  : list MatchDiscriminator :=
  sort_by_min_total_size (omap (fun acc => MatchDiscriminator_new acc type_map) accounts).

End Structural.

(** [MatchDiscriminator::matches_account]: [Iterator::all] stops at the
    first matcher that does not match. *)
Fixpoint all_matchers (ms : list Matcher) (buf : list Z) : option bool :=
  match ms with
  | [] => Some true
  | m :: rest =>
      match matcher_matches m buf with
      | None => None
      | Some false => Some false
      | Some true => all_matchers rest buf
      end
  end.

Definition matches_account (d : MatchDiscriminator) (buf : list Z) : option bool :=
  if (length buf <? min_total_size d)%nat then Some false
  else all_matchers (matchers d) buf.

(** The first loop of [find_matching_disc]: [inl d] is the early return
    of an exact size match, [inr candidates] the candidates in order. *)
Fixpoint collect_candidates (ds : list MatchDiscriminator) (buf : list Z)
  : option (MatchDiscriminator + list MatchDiscriminator) :=
  match ds with
  | [] => Some (inr [])
  | disc :: rest =>
      match matches_account disc buf with
      | None => None
      | Some true =>
          if (min_total_size disc =? length buf)%nat then Some (inl disc)
          else
            match collect_candidates rest buf with
            | None => None
            | Some (inl d) => Some (inl d)
            | Some (inr cs) => Some (inr (disc :: cs))
            end
      | Some false => collect_candidates rest buf
      end
  end.

(** The second loop: the candidate with strictly more matchers wins. *)
Fixpoint best_candidate (cs : list MatchDiscriminator) (best : option MatchDiscriminator)
  : option MatchDiscriminator :=
  match cs with
  | [] => best
  | candidate :: rest =>
      match best with
      | Some disc =>
          if (length (matchers disc) <? length (matchers candidate))%nat
          then best_candidate rest (Some candidate)
          else best_candidate rest best
      | None => best_candidate rest (Some candidate)
      end
  end.

(** [MatchDiscriminators::find_matching_disc]; the outer [None] is a panic. *)
Definition find_matching_disc (ds : list MatchDiscriminator) (buf : list Z)
  : option (option MatchDiscriminator) :=
  match collect_candidates ds buf with
  | None => None
  | Some (inl d) => Some (Some d)
  | Some (inr cs) => Some (best_candidate cs None)
  end.

(** [MatchDiscriminators::find_match_name] *)
Definition find_match_name (ds : list MatchDiscriminator) (buf : list Z)
  : option (option string) :=
  option_map (option_map (fun d => def_name (account d))) (find_matching_disc ds buf).

(** [json::discriminator::MatchDiscriminator::deserialize_account_data]:
    the classified account's deserializer, looked up by name, gets the
    whole blob. *)
Definition match_deserialize_account_data {A : Type}
    (deserialize_by_name : string -> list Z -> Outcome A)
    (ds : list MatchDiscriminator) (account_data : list Z) : Outcome A :=
  match account_data with
  | [] => Err (AccountDataTooShortForDiscriminatorBytes 0 1)
  | _ =>
      match find_match_name ds account_data with
      | None => Panic
      | Some (Some name) => deserialize_by_name name account_data
      | Some None => Err CannotFindDeserializerForAccount
      end
  end.

(* ================================================================= *)
(** ** Primitive readers ([deserializer::borsh], [deserializer::spl]) *)
(* ================================================================= *)

(** A reader [fn(buf: &mut &[u8]) -> Result<A>]: the value and the rest
    of the cursor. *)
Definition Reader (A : Type) := list Z -> Outcome (A * list Z).

(** Little-endian value of a byte list. *)
Fixpoint le_value (bs : list Z) : Z :=
  match bs with
  | [] => 0
  | b :: rest => b + 256 * le_value rest
  end.

(** Little-endian bytes of the low [n] bytes of [v] ([to_le_bytes]). *)
Definition le_bytes (n : nat) (v : Z) : list Z :=
  map (fun i => Z.land (Z.shiftr v (8 * Z.of_nat i)) 255) (seq 0 n).

Definition to_signed (bits : Z) (v : Z) : Z :=
  if v <? 2 ^ (bits - 1) then v else v - 2 ^ bits.

(** [<uN as BorshDeserialize>::deserialize]: [None] is the io error of a
    short buffer, which leaves the cursor alone. *)
Definition borsh_uint (n : nat) (buf : list Z) : option (Z * list Z) :=
  if (length buf <? n)%nat then None else Some (le_value (take n buf), drop n buf).

Definition borsh_int (n : nat) (buf : list Z) : option (Z * list Z) :=
  match borsh_uint n buf with
  | Some (v, rest) => Some (to_signed (8 * Z.of_nat n) v, rest)
  | None => None
  end.

(** [BorshDeserializer::u8] and its siblings: a borsh io error becomes
    [BorshDeserializeTypeError(kind, e, buf.to_vec())]. *)
Definition borsh_typed (kind : string) (r : list Z -> option (Z * list Z)) : Reader Z :=
  fun buf =>
    match r buf with
    | Some (v, rest) => Ok (v, rest)
    | None => Err (BorshDeserializeTypeError kind buf)
    end.

(** [<bool as BorshDeserialize>::deserialize]: a [u8], then [0], [1] or an
    io error (the byte is consumed). *)
Definition borsh_bool (buf : list Z) : Outcome (bool * list Z) :=
  match borsh_uint 1 buf with
  | None => Err (BorshDeserializeTypeError "bool" buf)
  | Some (b, rest) =>
      if b =? 0 then Ok (false, rest)
      else if b =? 1 then Ok (true, rest)
      else Err (BorshDeserializeTypeError "bool" rest)
  end.

(** [<Vec<u8> as BorshDeserialize>::deserialize]: a [u32] length, then
    that many bytes. *)
Definition borsh_vec_u8 (buf : list Z) : option (list Z * list Z) + list Z :=
  match borsh_uint 4 buf with
  | None => inr buf
  | Some (len, rest) =>
      if (length rest <? Z.to_nat len)%nat then inr rest
      else inl (Some (take (Z.to_nat len) rest, drop (Z.to_nat len) rest))
  end.

(** Well-formed UTF-8 ([String::from_utf8]). *)
Definition cont (b : Z) : bool := (0x80 <=? b) && (b <=? 0xBF).
Definition in_range (lo hi b : Z) : bool := (lo <=? b) && (b <=? hi).

Fixpoint utf8_valid (bs : list Z) : bool :=
  match bs with
  | [] => true
  | b :: rest =>
      if b <? 0x80 then utf8_valid rest
      else if in_range 0xC2 0xDF b then
        match rest with c1 :: r => cont c1 && utf8_valid r | _ => false end
      else if in_range 0xE0 0xEF b then
        match rest with
        | c1 :: c2 :: r =>
            (if b =? 0xE0 then in_range 0xA0 0xBF c1
             else if b =? 0xED then in_range 0x80 0x9F c1 else cont c1)
            && cont c2 && utf8_valid r
        | _ => false
        end
      else if in_range 0xF0 0xF4 b then
        match rest with
        | c1 :: c2 :: c3 :: r =>
            (if b =? 0xF0 then in_range 0x90 0xBF c1
             else if b =? 0xF4 then in_range 0x80 0x8F c1 else cont c1)
            && cont c2 && cont c3 && utf8_valid r
        | _ => false
        end
      else false
  end.

(** [BorshDeserializer::string]: [Vec<u8>], then [String::from_utf8]. *)
Definition borsh_string (buf : list Z) : Outcome (list Z * list Z) :=
  match borsh_vec_u8 buf with
  | inr at_err => Err (BorshDeserializeTypeError "String" at_err)
  | inl None => Err (BorshDeserializeTypeError "String" buf)
  | inl (Some (bytes, rest)) =>
      if utf8_valid bytes then Ok (bytes, rest)
      else Err (BorshDeserializeTypeError "String" rest)
  end.

(** [BorshDeserializer::bytes] *)
Definition borsh_bytes (buf : list Z) : Outcome (list Z * list Z) :=
  match borsh_vec_u8 buf with
  | inr at_err => Err (BorshDeserializeTypeError "bytes" at_err)
  | inl None => Err (BorshDeserializeTypeError "bytes" buf)
  | inl (Some (bytes, rest)) => Ok (bytes, rest)
  end.

(** [BorshDeserializer::pubkey]: 32 raw bytes. *)
Definition borsh_pubkey (buf : list Z) : Outcome (list Z * list Z) :=
  if (length buf <? 32)%nat then Err (BorshDeserializeTypeError "Pubkey" buf)
  else Ok (take 32 buf, drop 32 buf).

(** *** NaN-tolerant floats ([deserializer::floats]) *)

(** IEEE-754 NaN bit patterns. *)
Definition f32_is_nan (bits : Z) : bool :=
  (Z.land (Z.shiftr bits 23) 0xFF =? 0xFF) && negb (Z.land bits 0x7FFFFF =? 0).
Definition f64_is_nan (bits : Z) : bool :=
  (Z.land (Z.shiftr bits 52) 0x7FF =? 0x7FF) && negb (Z.land bits 0xFFFFFFFFFFFFF =? 0).

(** [f32::NAN] and [f64::NAN] *)
Definition F32_NAN : Z := 0x7FC00000.
Definition F64_NAN : Z := 0x7FF8000000000000.

(** [<f32 as BorshDeserialize>::deserialize]: little-endian bits; a NaN
    is refused.  [None] is the io error. *)
Definition borsh_f32 (buf : list Z) : option (Z * list Z) :=
  if (length buf <? 4)%nat then None
  else let v := le_value (take 4 buf) in
       if f32_is_nan v then None else Some (v, drop 4 buf).

Definition borsh_f64 (buf : list Z) : option (Z * list Z) :=
  if (length buf <? 8)%nat then None
  else let v := le_value (take 8 buf) in
       if f64_is_nan v then None else Some (v, drop 8 buf).

Definition LOWER7_BITS_MASK : Z := 0x7F.
Definition UPPER4_BITS_MASK : Z := 0xF0.

(** [floats::deserialize_f32] *)
Definition deserialize_f32 (buf : list Z) : Outcome (Z * list Z) :=
  if (4 <=? length buf)%nat then
    let f32_slice := take 4 buf in
    if Z.land (nth 3 buf 0) LOWER7_BITS_MASK =? LOWER7_BITS_MASK then
      Ok (F32_NAN, drop 4 buf)
    else
      match borsh_f32 buf with
      | Some r => Ok r
      | None => Err (BorshDeserializeFloatError "f32" f32_slice)
      end
  else
    match borsh_f32 buf with
    | Some r => Ok r
    | None => Err (BorshDeserializeFloatError "f32" buf)
    end.

(** [floats::deserialize_f64] *)
Definition deserialize_f64 (buf : list Z) : Outcome (Z * list Z) :=
  if (8 <=? length buf)%nat then
    let f64_slice := take 8 buf in
    if (Z.land (nth 6 buf 0) UPPER4_BITS_MASK =? UPPER4_BITS_MASK)
       && (Z.land (nth 7 buf 0) LOWER7_BITS_MASK =? LOWER7_BITS_MASK) then
      Ok (F64_NAN, drop 8 buf)
    else
      match borsh_f64 buf with
      | Some r => Ok r
      | None => Err (BorshDeserializeFloatError "f64" f64_slice)
      end
  else
    match borsh_f64 buf with
    | Some r => Ok r
    | None => Err (BorshDeserializeFloatError "f64" buf)
    end.

(** [deserializer::DeserializeProvider] *)
Inductive DeserializeProvider := Borsh | Spl.

(** [SplDeserializer::pubkey]: [&buf[0..32]] panics on a short buffer. *)
Definition spl_pubkey (buf : list Z) : Outcome (list Z * list Z) :=
  if (length buf <? 32)%nat then Panic else Ok (take 32 buf, drop 32 buf).

(** [SplDeserializer::coption].  The size oracle is called without a type
    map ([idl_type_bytes(inner, None)]), so it never resolves a [Defined]
    name and needs no fuel. *)
Definition spl_coption (inner : IdlType) (buf : list Z) : Outcome (bool * list Z) :=
  if (length buf <? 4)%nat then
    Err (InvalidDataToDeserialize "coption" "buf too short" buf)
  else
    let tag := take 4 buf in
    let buf := drop 4 buf in
    if bool_decide (tag = [0; 0; 0; 0]) then
      match idl_type_bytes 0 inner None with
      | Some byte_len =>
          if (length buf <? byte_len)%nat then Panic else Ok (false, drop byte_len buf)
      | None =>
          Err (InvalidDataToDeserialize "coption"
                 "byte size of inner type needs to be known when it is None" buf)
      end
    else if bool_decide (tag = [1; 0; 0; 0]) then Ok (true, buf)
    else Err (InvalidDataToDeserialize "coption" "invalid tag" tag).

(** [BorshDeserializer::option]: [self.u8(buf).map(|v| v != 0)] *)
Definition borsh_option (buf : list Z) : Outcome (bool * list Z) :=
  match borsh_typed "u8" (borsh_uint 1) buf with
  | Ok (v, rest) => Ok (negb (v =? 0), rest)
  | Err e => Err e
  | Panic => Panic
  end.

(** The methods of [ChainparserDeserialize] for each provider; the
    [SplDeserializer] delegates everything but [pubkey], [option] and
    [coption] to the borsh one. *)
Definition de_uint (kind : string) (n : nat) (de : DeserializeProvider) : Reader Z :=
  borsh_typed kind (borsh_uint n).
Definition de_int (kind : string) (n : nat) (de : DeserializeProvider) : Reader Z :=
  borsh_typed kind (borsh_int n).
Definition de_pubkey (de : DeserializeProvider) : Reader (list Z) :=
  match de with Borsh => borsh_pubkey | Spl => spl_pubkey end.
Definition de_option (de : DeserializeProvider) : Reader bool :=
  match de with
  | Borsh => borsh_option
  | Spl => fun _ => Err (DeserializerDoesNotSupportType "spl" "option")
  end.
Definition de_coption (de : DeserializeProvider) (inner : IdlType) : Reader bool :=
  match de with
  | Borsh => fun _ => Err (DeserializerDoesNotSupportType "borsh" "coption")
  | Spl => spl_coption inner
  end.

(* ================================================================= *)
(** ** The JSON decoder ([json::*]) *)
(* ================================================================= *)

(** [json_serialization_opts::JsonSerializationOpts] *)
Record JsonSerializationOpts := {
  pubkey_as_base58 : bool;
  n64_as_string : bool;
  n128_as_string : bool
}.

Definition default_opts : JsonSerializationOpts :=
  {| pubkey_as_base58 := true; n64_as_string := false; n128_as_string := false |}.

(** What is written to the sink.  Punctuation and names are [PStr]; a
    value is written through its [to_string] (integers, floats, a base-58
    key), its [{:?}] form (key bytes), or as is (a decoded [String]). *)
Inductive Piece :=
  | PStr (s : string)
  | PInt (n : Z)
  | PF32 (bits : Z)
  | PF64 (bits : Z)
  | PText (utf8 : list Z)
  | PByteList (bytes : list Z)
  | PBase58 (key : list Z)
  | PKeyDebug (key : list Z).

(** The decoding computation: the cursor and the sink are threaded through;
    writing to the [String] sink does not fail. *)
Definition M (A : Type) := list Z -> list Piece -> Outcome (A * list Z * list Piece).

Definition ret {A} (a : A) : M A := fun buf out => Ok (a, buf, out).
Definition bind {A B} (m : M A) (k : A -> M B) : M B :=
  fun buf out =>
    match m buf out with
    | Ok (a, buf', out') => k a buf' out'
    | Err e => Err e
    | Panic => Panic
    end.
Definition throw {A} (e : ChainparserError) : M A := fun _ _ => Err e.
Definition panic {A} : M A := fun _ _ => Panic.
Definition write (p : Piece) : M unit := fun buf out => Ok (tt, buf, out ++ [p]).
(** Running a reader on the cursor. *)
Definition read {A} (r : Reader A) : M A :=
  fun buf out =>
    match r buf with
    | Ok (a, buf') => Ok (a, buf', out)
    | Err e => Err e
    | Panic => Panic
    end.
(** [.map_err(f)] *)
Definition map_err {A} (f : ChainparserError -> ChainparserError) (m : M A) : M A :=
  fun buf out =>
    match m buf out with
    | Err e => Err (f e)
    | r => r
    end.

Notation "'let*' x ':=' m 'in' k" := (bind m (fun x => k))
  (at level 200, x name, m at level 100, k at level 200).
Notation "m1 ;; m2" := (bind m1 (fun _ => m2)) (at level 100, right associativity).

Definition quote : string := String.String (Ascii.ascii_of_nat 34) String.EmptyString.

(** [json_common::write_quoted] *)
Definition write_quoted (p : Piece) : M unit :=
  write (PStr quote) ;; write p ;; write (PStr quote).

(** [for i in 0..len { body(i) }] *)
Fixpoint for_range (i : nat) (count : nat) (body : nat -> M unit) : M unit :=
  match count with
  | O => ret tt
  | S c => body i ;; for_range (S i) c body
  end.

(** [for (i, x) in xs.iter().enumerate() { body(i, x) }] *)
Fixpoint for_enumerate {A} (i : nat) (xs : list A) (body : nat -> A -> M unit) : M unit :=
  match xs with
  | [] => ret tt
  | x :: rest => body i x ;; for_enumerate (S i) rest body
  end.

(** [if i < len - 1 { f.write_str(", ")? }] *)
Definition separator (i len : nat) (sep : string) : M unit :=
  if (i <? len - 1)%nat then write (PStr sep) else ret tt.

(** [json_common::deserialize_fields_to_object] *)
Definition deserialize_fields_to_object (field_de : IdlField -> M unit)
    (fields : list IdlField) : M unit :=
  write (PStr "{") ;;
  for_enumerate 0 fields (fun i field =>
    field_de field ;;
    if (i + 1 <? length fields)%nat then write (PStr ",") else ret tt) ;;
  write (PStr "}").

(** [u8::deserialize(buf)?] in the enum arm: the io error converts to
    [ChainparserError::BorshIoError]. *)
Definition borsh_u8_io (buf : list Z) : Outcome (Z * list Z) :=
  match borsh_uint 1 buf with Some r => Ok r | None => Err BorshIoError end.

(** The registry [JsonTypeDefinitionDeserializerMap]: the deserializer of a
    named type is built from its definition, with the same options. *)
Abbreviation TypeDeMap := (gmap string IdlTypeDefinition).

Section Decoder.

Variable opts : JsonSerializationOpts.
Variable de : DeserializeProvider.
Variable type_map : TypeDeMap.

(** [JsonIdlTypeDeserializer::deserialize],
    [JsonIdlTypeDefinitionDeserializer::deserialize],
    [JsonIdlFieldDeserializer::deserialize] and
    [JsonIdlEnumVariantDeserializer::deserialize].  Every call spends one
    unit of [fuel]; running out of it is the stack overflow of an unbounded
    recursion through [Defined] names. *)
Fixpoint deserialize_type (fuel : nat) (ty : IdlType) {struct fuel} : M unit :=
  match fuel with
  | O => panic
  | S f =>
      match ty with
      | U8 => let* v := read (de_uint "u8" 1 de) in write (PInt v)
      | U16 => let* v := read (de_uint "u16" 2 de) in write (PInt v)
      | U32 => let* v := read (de_uint "u32" 4 de) in write (PInt v)
      | U64 =>
          if n64_as_string opts
          then let* v := read (de_uint "u64" 8 de) in write_quoted (PInt v)
          else let* v := read (de_uint "u64" 8 de) in write (PInt v)
      | U128 =>
          if n128_as_string opts
          then let* v := read (de_uint "u128" 16 de) in write_quoted (PInt v)
          else let* v := read (de_uint "u128" 16 de) in write (PInt v)
      | I8 => let* v := read (de_int "i8" 1 de) in write (PInt v)
      | I16 => let* v := read (de_int "i16" 2 de) in write (PInt v)
      | I32 => let* v := read (de_int "i32" 4 de) in write (PInt v)
      | I64 =>
          if n64_as_string opts
          then let* v := read (de_int "i64" 8 de) in write_quoted (PInt v)
          else let* v := read (de_int "i64" 8 de) in write (PInt v)
      | I128 =>
          if n128_as_string opts
          then let* v := read (de_int "i128" 16 de) in write_quoted (PInt v)
          else let* v := read (de_int "i128" 16 de) in write (PInt v)
      | F32 => let* v := read deserialize_f32 in write (PF32 v)
      | F64 => let* v := read deserialize_f64 in write (PF64 v)
      | Bool => let* b := read borsh_bool in write (PStr (if b then "true" else "false"))
      | IdlString => let* s := read borsh_string in write_quoted (PText s)
      | Tuple inners =>
          let len := length inners in
          write (PStr "[") ;;
          for_enumerate 0 inners (fun i inner =>
            deserialize_type f inner ;; separator i len ", ") ;;
          write (PStr "]")
      | Array inner len =>
          write (PStr "[") ;;
          for_range 0 len (fun i =>
            map_err (CompositeDeserializeError "Array" [i; len]) (deserialize_type f inner) ;;
            separator i len ", ") ;;
          write (PStr "]")
      | Vec inner =>
          let* len := read (de_uint "u32" 4 de) in
          let len := Z.to_nat len in
          write (PStr "[") ;;
          for_range 0 len (fun i =>
            map_err (CompositeDeserializeError "Vec" [i; len]) (deserialize_type f inner) ;;
            separator i len ", ") ;;
          write (PStr "]")
      | HashMap inner1 inner2 | BTreeMap inner1 inner2 =>
          let* len := read (de_uint "u32" 4 de) in
          let len := Z.to_nat len in
          write (PStr "{") ;;
          for_range 0 len (fun i =>
            write (PStr quote) ;;
            map_err (CompositeDeserializeError "Key HashMap" [i; len])
              (deserialize_type f inner1) ;;
            write (PStr (quote ++ ": ")) ;;
            map_err (CompositeDeserializeError "Val HashMap" [i; len])
              (deserialize_type f inner2) ;;
            separator i len ", ") ;;
          write (PStr "}")
      | HashSet inner | BTreeSet inner =>
          let* len := read (de_uint "u32" 4 de) in
          let len := Z.to_nat len in
          write (PStr "[") ;;
          for_range 0 len (fun i =>
            map_err (CompositeDeserializeError "HashSet" [i; len]) (deserialize_type f inner) ;;
            separator i len ", ") ;;
          write (PStr "]")
      | Option inner =>
          let* present := read (de_option de) in
          if present
          then map_err (CompositeDeserializeError "Option" []) (deserialize_type f inner)
          else write (PStr "null")
      | COption inner =>
          let* present := read (de_coption de inner) in
          if present
          then map_err (CompositeDeserializeError "Option" []) (deserialize_type f inner)
          else write (PStr "null")
      | Bytes =>
          write (PStr "[") ;;
          let* bytes := read borsh_bytes in
          write (PByteList bytes) ;;
          write (PStr "]")
      | PublicKey =>
          let* pubkey := read (de_pubkey de) in
          if pubkey_as_base58 opts
          then write_quoted (PBase58 pubkey)
          else write (PKeyDebug pubkey)
      | Defined name =>
          match type_map !! name with
          | Some deser =>
              map_err (CompositeDeserializeError ("Defined('" ++ name ++ "')") [])
                (deserialize_def f deser)
          | None => throw (CannotFindDefinedType name)
          end
      end
  end

with deserialize_def (fuel : nat) (d : IdlTypeDefinition) {struct fuel} : M unit :=
  match fuel with
  | O => panic
  | S f =>
      match def_ty d with
      | Struct fields =>
          map_err (StructDeserializeError (def_name d))
            (deserialize_fields_to_object (deserialize_field f) fields)
      | Enum variants =>
          let* discriminator := read borsh_u8_io in
          map_err (EnumDeserializeError (def_name d))
            (match nth_error variants (Z.to_nat discriminator) with
             | Some deser => deserialize_variant f deser
             | None => throw (InvalidEnumVariantDiscriminator discriminator)
             end)
      end
  end

with deserialize_field (fuel : nat) (field : IdlField) {struct fuel} : M unit :=
  match fuel with
  | O => panic
  | S f =>
      write (PStr quote) ;;
      write (PStr (field_name field)) ;;
      write (PStr (quote ++ ":")) ;;
      map_err (FieldDeserializeError (field_name field))
        (deserialize_type f (field_ty field))
  end

with deserialize_variant (fuel : nat) (v : IdlEnumVariant) {struct fuel} : M unit :=
  match fuel with
  | O => panic
  | S f =>
      let write_key :=
        write (PStr quote) ;; write (PStr (variant_name v)) ;; write (PStr (quote ++ ":")) in
      match variant_fields v with
      | Some (Named named_fields) =>
          write (PStr "{") ;;
          write_key ;;
          map_err (EnumVariantDeserializeError (variant_name v))
            (deserialize_fields_to_object (deserialize_field f) named_fields) ;;
          write (PStr "}")
      | Some (TupleFields types) =>
          write (PStr "{") ;;
          write_key ;;
          map_err (EnumVariantDeserializeError (variant_name v))
            (deserialize_type f (Tuple types)) ;;
          write (PStr "}")
      | None => write_quoted (PStr (variant_name v))
      end
  end.

End Decoder.

(** [fn deserialize(de_provider, deserializer, f, data)] in
    [json::discriminator]: the result, and what was written to the sink. *)
Definition run_account_deserializer (fuel : nat) (opts : JsonSerializationOpts)
    (de : DeserializeProvider) (type_map : TypeDeMap) (d : IdlTypeDefinition)
    (data : list Z) (out : list Piece) : Outcome (unit * list Piece) :=
  match deserialize_def opts de type_map fuel d data out with
  | Ok (_, _, out') => Ok (tt, out')
  | Err e => Err e
  | Panic => Panic
  end.

(* ================================================================= *)
(** ** The prefix discriminator ([json::discriminator::PrefixDiscriminator]) *)
(* ================================================================= *)

(** [PrefixDiscriminator::new]: the deserializers keyed by each account's
    discriminator, inserted in declaration order. *)
Definition prefix_deserializers (accounts : list IdlTypeDefinition)
  : gmap (list Z) IdlTypeDefinition :=
  foldl (fun deserializers account_definition =>
           <[account_discriminator (def_name account_definition) := account_definition]>
             deserializers) ∅ accounts.

(** [PrefixDiscriminator::deserialize_account_data] *)
Definition prefix_deserialize_account_data (fuel : nat) (opts : JsonSerializationOpts)
    (de : DeserializeProvider) (type_map : TypeDeMap) (accounts : list IdlTypeDefinition)
    (account_data : list Z) (out : list Piece) : Outcome (unit * list Piece) :=
  if (length account_data <? 8)%nat then
    Err (AccountDataTooShortForDiscriminatorBytes (length account_data) 8)
  else
    let discriminator := take 8 account_data in
    match prefix_deserializers accounts !! discriminator with
    | None => Err (UnknownDiscriminatedAccount discriminator)
    | Some deserializer =>
        let data := drop 8 account_data in
        run_account_deserializer fuel opts de type_map deserializer data out
    end.

(* ================================================================= *)
(** ** The IDL container ([idl::encoder]) *)
(* ================================================================= *)




Section IdlContainer.

(** The collaborators from other crates: the [Idl] type with
    [serde_json::to_vec] and [solana_idl::try_extract_classic_idl], and the
    zlib codec of [flate2] ([ZlibEncoder] at the default level,
    [ZlibDecoder::read_to_string]).  [None] is their error. *)
Variable Idl : Type.
Variable serde_json_to_vec : Idl -> option (list Z).
Variable try_extract_classic_idl : list Z -> option Idl.
Variable zip_bytes : list Z -> option (list Z).
Variable unzip_bytes : list Z -> option (list Z).




End IdlContainer.

(* ================================================================= *)
(** ** Account names ([json::discriminator]) *)
(* ================================================================= *)

(** [PrefixDiscriminator::deserialize_account_data_by_name]: the whole blob
    goes to the deserializer registered under the name's tag. *)
Definition prefix_deserialize_account_data_by_name (fuel : nat) (opts : JsonSerializationOpts)
    (de : DeserializeProvider) (type_map : TypeDeMap) (accounts : list IdlTypeDefinition)
    (account_data : list Z) (account_name : string) (out : list Piece)
  : Outcome (unit * list Piece) :=
  let discriminator := account_discriminator account_name in
  match prefix_deserializers accounts !! discriminator with
  | None => Err (UnknownAccount account_name)
  | Some deserializer => run_account_deserializer fuel opts de type_map deserializer account_data out
  end.

(** [PrefixDiscriminator::new]: [by_name], the tag of each account name. *)
Definition prefix_by_name (accounts : list IdlTypeDefinition) : gmap string DiscriminatorBytes :=
  foldl (fun by_name account_definition =>
           <[def_name account_definition := account_discriminator (def_name account_definition)]>
             by_name) ∅ accounts.

(** [PrefixDiscriminator::new]: [account_names], built from the entries of
    [by_name] (swapped), in the iteration order of that map. *)
Definition prefix_account_names (entries : list (string * DiscriminatorBytes))
  : gmap DiscriminatorBytes string :=
  foldl (fun account_names '(name, discriminator) => <[discriminator := name]> account_names)
        ∅ entries.

(** [JsonAccountsDeserializer::account_name] for the prefix discriminator:
    [None] for a blob shorter than 8 bytes, else the name of its tag. *)
Definition prefix_account_name (entries : list (string * DiscriminatorBytes))
    (account_data : list Z) : option string :=
  if (length account_data <? 8)%nat then None
  else prefix_account_names entries !! discriminator_from_data (take 8 account_data).

(** [MatchDiscriminator::new]: [deserializer_by_name], keyed by account name. *)
Definition match_deserializers (ds : list MatchDiscriminator) : gmap string IdlTypeDefinition :=
  foldl (fun deserializer_by_name disc =>
           <[def_name (account disc) := account disc]> deserializer_by_name) ∅ ds.

(** [MatchDiscriminator::deserialize_account_data_by_name] *)
Definition match_deserialize_account_data_by_name (fuel : nat) (opts : JsonSerializationOpts)
    (de : DeserializeProvider) (type_map : TypeDeMap) (ds : list MatchDiscriminator)
    (account_data : list Z) (account_name : string) (out : list Piece)
    : Outcome (unit * list Piece) :=
  match match_deserializers ds !! account_name with
  | Some deserializer => run_account_deserializer fuel opts de type_map deserializer account_data out
  | None => Err (UnknownAccount account_name)
  end.

(* ================================================================= *)
(** ** The instruction mapper ([ixs::instruction_mapper]) *)
(* ================================================================= *)

(** [solana_idl::IdlInstruction] with the names of its accounts
    ([accounts.iter().map(|x| x.name())]), as [map_accounts] reads it. *)
Record IdlInstructionAccounts := {
  ixa_instruction : IdlInstruction;
  ixa_accounts : list string
}.

(** The score loop of [find_best_matching_idl_ix]: the number of leading
    bytes on which [disc] and [data] agree. *)
Fixpoint prefix_score (disc data : list Z) : nat :=
  match disc, data with
  | a :: disc', b :: data' => if Z.eqb a b then S (prefix_score disc' data') else 0
  | _, _ => 0
  end.

Fixpoint find_best_matching_loop (ix_idls : list IdlInstructionAccounts) (data : list Z)
    (best_match : option IdlInstructionAccounts) (best_match_score : nat)
    : option IdlInstructionAccounts :=
  match ix_idls with
  | [] => best_match
  | idl_ix :: rest =>
      let disc := discriminator_from_ix (ixa_instruction idl_ix) in
      if (length data <? length disc)%nat
      then find_best_matching_loop rest data best_match best_match_score
      else
        let score := prefix_score disc data in
        if (best_match_score <? score)%nat
        then find_best_matching_loop rest data (Some idl_ix) score
        else find_best_matching_loop rest data best_match best_match_score
  end.

(** [ixs::instruction_mapper::find_best_matching_idl_ix] *)
Definition find_best_matching_idl_ix (ix_idls : list IdlInstructionAccounts) (data : list Z)
    : option IdlInstructionAccounts :=
  find_best_matching_loop ix_idls data None 0.

Section InstructionMapper.
Context {PK : Type} `{Countable PK}.

(** [ParseableInstruction]: program id, account keys and data. *)
Record ParsedInstruction := {
  pi_program_id : PK;
  pi_accounts : list PK;
  pi_data : list Z
}.

(** The parts of [solana_idl::Idl] that [map_accounts] reads. *)
Record IdlProgram := {
  idl_prog_name : string;
  idl_instructions : list IdlInstructionAccounts
}.

Record InstructionMapResult := {
  mapped_accounts : gmap PK string;
  mapped_instruction_name : option string;
  mapped_program_name : option string
}.

Variable BUILTIN_PROGRAMS : gmap PK string.

(** The body of the [for (idx, pubkey)] loop of [map_accounts]. *)
Fixpoint map_accounts_loop (program_id : PK) (program_name : option string)
    (mapper : option IdlInstructionAccounts) (idx : nat) (ix_accounts : list PK)
    (accounts : gmap PK string) (instruction_name : option string)
    : gmap PK string * option string :=
  match ix_accounts with
  | [] => (accounts, instruction_name)
  | pubkey :: rest =>
      let continue_with accounts instruction_name :=
        map_accounts_loop program_id program_name mapper (S idx) rest accounts instruction_name in
      match BUILTIN_PROGRAMS !! pubkey with
      | Some name => continue_with (<[pubkey := name]> accounts) instruction_name
      | None =>
          let from_mapper :=
            match mapper with
            | Some mapper =>
                let accounts :=
                  match ixa_accounts mapper !! idx with
                  | Some name => <[pubkey := name]> accounts
                  | None => accounts
                  end in
                continue_with accounts (Some (ix_name (ixa_instruction mapper)))
            | None => continue_with accounts instruction_name
            end in
          match program_name with
          | Some program_name =>
              if decide (pubkey = program_id)
              then continue_with (<[pubkey := program_name]> accounts) instruction_name
              else from_mapper
          | None => from_mapper
          end
      end
  end.

(** [InstructionMapper::map_accounts] *)
Definition map_accounts (instruction : ParsedInstruction) (idl : option IdlProgram)
    : InstructionMapResult :=
  let mapper := idl ≫= fun idl =>
    find_best_matching_idl_ix (idl_instructions idl) (pi_data instruction) in
  let program_name := idl_prog_name <$> idl in
  let program_id := pi_program_id instruction in
  let '(accounts, instruction_name) :=
    map_accounts_loop program_id program_name mapper 0 (pi_accounts instruction) ∅ None in
  let program_name :=
    match idl with
    | Some x => Some (idl_prog_name x)
    | None => BUILTIN_PROGRAMS !! program_id
    end in
  {| mapped_accounts := accounts;
     mapped_instruction_name := instruction_name;
     mapped_program_name := program_name |}.

End InstructionMapper.

(** [BUILTIN_PROGRAMS]: the (name, key) pairs of the table, each key
    written as its base58 text, collected into a map. *)
Definition BUILTIN_PROGRAM_ENTRIES : list (string * string) := [
  ("System Program"                , "11111111111111111111111111111111");
  ("BPF Upgradeable Loader"        , "BPFLoaderUpgradeab1e11111111111111111111111");
  ("BPF Loader 2"                  , "BPFLoader2111111111111111111111111111111111");
  ("Config Program"                , "Config1111111111111111111111111111111111111");
  ("Feature Program"               , "Feature111111111111111111111111111111111111");
  ("Native Loader"                 , "NativeLoader1111111111111111111111111111111");
  ("Stake Program"                 , "Stake11111111111111111111111111111111111111");
  ("Sysvar"                        , "Sysvar1111111111111111111111111111111111111");
  ("Vote Program"                  , "Vote111111111111111111111111111111111111111");
  ("Stake Config"                  , "StakeConfig11111111111111111111111111111111");
  ("Sol Program"                   , "So11111111111111111111111111111111111111112");
  ("Clock Sysvar"                  , "SysvarC1ock11111111111111111111111111111111");
  ("Epoch Schedule Sysvar"         , "SysvarEpochSchedu1e111111111111111111111111");
  ("Fees Sysvar"                   , "SysvarFees111111111111111111111111111111111");
  ("Last Restart Slog Sysvar"      , "SysvarLastRestartS1ot1111111111111111111111");
  ("Recent Blockhashes Sysvar"     , "SysvarRecentB1ockHashes11111111111111111111");
  ("Rent Sysvar"                   , "SysvarRent111111111111111111111111111111111");
  ("Slot Hashes"                   , "SysvarS1otHashes111111111111111111111111111");
  ("Slot History"                  , "SysvarS1otHistory11111111111111111111111111");
  ("Stake History"                 , "SysvarStakeHistory1111111111111111111111111");
  ("MagicBlock System Program"     , "Magic11111111111111111111111111111111111111");
  ("MagicBlock Delegation Program" , "DELeGGvXpWV2fqJUhqcF5ZSYMS4JTLjteaAMARRSaeSh");
  ("Luzid Authority"               , "LUzidNSiPNjYNkxZcUm5hYHwnWPwsUfh2US1cpWwaBm")
].

Definition BUILTIN_PROGRAMS : gmap string string :=
  foldl (fun m '(name, key) => <[key := name]> m) ∅ BUILTIN_PROGRAM_ENTRIES.


(* ================================================================= *)
(** * Specification-side definitions and inputs *)
(* ================================================================= *)

(** The instruction tag as the specification words it: the explicit bytes,
    else the single value byte, else the hash of ["global:"] and the name
    taken verbatim. *)
Definition discriminator_verbatim (ix : IdlInstruction) : list Z :=
  match ix_discriminant ix with
  | Some x => match disc_bytes x with Some b => b | None => [disc_value x] end
  | None => take 8 (Sha256.hash (bytes_of_string ("global:" ++ ix_name ix)%string))
  end.

Definition house_initialize_ix : IdlInstruction :=
  {| ix_name := "houseInitialize"; ix_discriminant := None |}.


(** The exponent of an [f64] lies in its bytes 6 and 7, that of an [f32]
    in its bytes 2 and 3. *)
Definition f64_exponent_agrees (b6 b7 : Z) : bool :=
  Bool.eqb (Z.land (Z.shiftr (b6 + 256 * b7) 4) 0x7FF =? 0x7FF)
           ((Z.land b6 UPPER4_BITS_MASK =? UPPER4_BITS_MASK)
            && (Z.land b7 LOWER7_BITS_MASK =? LOWER7_BITS_MASK)).

Definition f32_exponent_agrees (b2 b3 : Z) : bool :=
  implb (Z.land (Z.shiftr (b2 + 256 * b3) 7) 0xFF =? 0xFF)
        (Z.land b3 LOWER7_BITS_MASK =? LOWER7_BITS_MASK).

Definition all_byte_pairs (P : Z -> Z -> bool) : bool :=
  forallb (fun i => forallb (fun j => P (Z.of_nat i) (Z.of_nat j)) (seq 0 256)) (seq 0 256).

Definition is_byte (b : Z) : Prop := 0 <= b < 256.

(** An account [VaultInfo { a: u8 }] and a blob carrying its tag. *)
Definition vault_info : IdlTypeDefinition :=
  {| def_name := "VaultInfo"; def_ty := Struct [{| field_name := "a"; field_ty := U8 |}] |}.

(** The bytes a matcher reads: [array_ref!(buf, offset, 4)] or
    [array_ref!(buf, offset, 1)]. *)
Definition matcher_offset (m : Matcher) : nat :=
  match m with MCOption offset _ => offset | MBool offset => offset end.

Definition matcher_width (m : Matcher) : nat :=
  match m with MCOption _ _ => 4%nat | MBool _ => 1%nat end.

(** Every matcher of [d] reads inside the first [min_total_size d] bytes. *)
Definition matchers_in_bounds (d : MatchDiscriminator) : bool :=
  forallb (fun m => (matcher_offset m + matcher_width m <=? min_total_size d)%nat) (matchers d).

(** Membership in the candidate set [C] of the specification: the blob
    is long enough and every matcher matches. *)
Definition is_candidate (buf : list Z) (d : MatchDiscriminator) : bool :=
  (min_total_size d <=? length buf)%nat &&
  forallb (fun m => bool_decide (matcher_matches m buf = Some true)) (matchers d).

Definition candidates (ds : list MatchDiscriminator) (buf : list Z) : list MatchDiscriminator :=
  List.filter (is_candidate buf) ds.

Definition max_matchers (cs : list MatchDiscriminator) : nat :=
  fold_right (fun d m => Nat.max (length (matchers d)) m) 0%nat cs.

(** The selection as the specification words it: the first candidate of
    exactly the blob's size, else the first candidate with the largest
    number of matchers. *)
Definition select_spec (buf : list Z) (cs : list MatchDiscriminator) : option MatchDiscriminator :=
  match List.find (fun d => (min_total_size d =? length buf)%nat) cs with
  | Some d => Some d
  | None => List.find (fun d => (length (matchers d) =? max_matchers cs)%nat) cs
  end.

Definition ByMinTotalSize (d1 d2 : MatchDiscriminator) : Prop :=
  (min_total_size d1 <= min_total_size d2)%nat.

(** Sizes and offsets as the specification words them: the walk stops at
    the first field of unknown size. *)
Fixpoint sizes_loop_stopping (fuel : nat) (type_map : TypeMap) (fields : list IdlField)
    (offset : nat) (sizes offsets : list nat) : list nat * list nat :=
  match fields with
  | [] => (sizes, offsets)
  | field :: rest =>
      match idl_type_bytes fuel (field_ty field) (Some type_map) with
      | Some size =>
          sizes_loop_stopping fuel type_map rest (offset + size) (sizes ++ [size]) (offsets ++ [offset])
      | None => (sizes, offsets)
      end
  end.

Definition MatchDiscriminator_new_stopping (fuel : nat) (acc : IdlTypeDefinition)
    (type_map : TypeMap) : option MatchDiscriminator :=
  match def_ty acc with
  | Struct fields =>
      let '(field_sizes, field_offsets) := sizes_loop_stopping fuel type_map fields 0 [] [] in
      match account_matchers fuel acc type_map field_offsets with
      | [] => None
      | ms => Some {| account := acc; min_total_size := sum_list_with id field_sizes;
                      matchers := ms |}
      end
  | Enum _ => None
  end.

Definition mk_field (name : string) (ty : IdlType) : IdlField :=
  {| field_name := name; field_ty := ty |}.

Definition mk_struct (name : string) (fields : list IdlField) : IdlTypeDefinition :=
  {| def_name := name; def_ty := Struct fields |}.

(** Two accounts told apart by their size only. *)
Definition account_a : IdlTypeDefinition := mk_struct "A" [mk_field "a" Bool; mk_field "b" Bool].
Definition account_b : IdlTypeDefinition := mk_struct "B" [mk_field "a" Bool; mk_field "b" U32].

(** A bool after a field of unknown size. *)
Definition account_string_bool : IdlTypeDefinition :=
  mk_struct "StringBool" [mk_field "a" IdlString; mk_field "b" Bool; mk_field "c" U8].

(** A [COption<u8>] after a field of unknown size. *)
Definition account_string_coption : IdlTypeDefinition :=
  mk_struct "StringCOption" [mk_field "a" IdlString; mk_field "b" (COption U8); mk_field "c" U8].

(** A decoder by name that accepts anything. *)
Definition accept_by_name (name : string) (data : list Z) : Outcome unit := Ok tt.




(** A computation that only writes. *)
Definition writes_only (m : M unit) : Prop :=
  forall buf out, exists out', m buf out = Ok (tt, buf, out').



(** Cursor and sink discipline of a decoder run. *)

(** A computation that, when it succeeds, has read exactly [n] bytes. *)
Definition consumes {A} (m : M A) (n : nat) : Prop :=
  forall buf out a rest out', m buf out = Ok (a, rest, out') ->
  (n <= length buf)%nat /\ rest = drop n buf.

Definition reader_consumes {A} (r : Reader A) (n : nat) : Prop :=
  forall buf a rest, r buf = Ok (a, rest) -> (n <= length buf)%nat /\ rest = drop n buf.

(** A computation that, when it succeeds, leaves a suffix of the cursor
    and extends the sink. *)
Definition advances {A} (m : M A) : Prop :=
  forall buf out a rest out', m buf out = Ok (a, rest, out') ->
  (exists k, rest = drop k buf) /\ (exists s, out' = out ++ s).

Definition reader_advances {A} (r : Reader A) : Prop :=
  forall buf a rest, r buf = Ok (a, rest) -> exists k, rest = drop k buf.

(** Sample inputs. *)
Definition point_types : TypeDeMap :=
  {["Point" := mk_struct "Point" [mk_field "x" U8; mk_field "y" I16]]}.
Definition point_bytes : list Z := [1; 2; 0; 3; 4; 0; 9].


(** Whether an IDL instruction takes part in [find_best_matching_idl_ix]
    (its tag fits in the data), and its score. *)
Definition eligible (data : list Z) (ix : IdlInstructionAccounts) : Prop :=
  (length (discriminator_from_ix (ixa_instruction ix)) <= length data)%nat.

Definition ix_score (data : list Z) (ix : IdlInstructionAccounts) : nat :=
  prefix_score (discriminator_from_ix (ixa_instruction ix)) data.

Section InstructionMapperSpec.
Context {PK : Type} `{Countable PK}.
Variable BUILTIN_PROGRAMS : gmap PK string.

(** The name [map_accounts] gives the account at [idx]. *)
Definition account_label (program_id : PK) (program_name : option string)
    (mapper : option IdlInstructionAccounts) (idx : nat) (pubkey : PK) : option string :=
  let mapper_name := mapper ≫= fun m => ixa_accounts m !! idx in
  match BUILTIN_PROGRAMS !! pubkey with
  | Some name => Some name
  | None =>
      match program_name with
      | Some program_name => if decide (pubkey = program_id) then Some program_name else mapper_name
      | None => mapper_name
      end
  end.

Definition names_instruction (program_id : PK) (program_name : option string) (pubkey : PK) : bool :=
  bool_decide (BUILTIN_PROGRAMS !! pubkey = None) &&
  negb (match program_name with Some _ => bool_decide (pubkey = program_id) | None => false end).

End InstructionMapperSpec.



Definition increment_ix : IdlInstructionAccounts :=
  {| ixa_instruction := {| ix_name := "increment";
                           ix_discriminant := Some {| disc_value := 1; disc_bytes := Some [1; 7] |} |};
     ixa_accounts := ["counter"; "authority"; "program"] |}.

Definition decrement_ix : IdlInstructionAccounts :=
  {| ixa_instruction := {| ix_name := "decrement";
                           ix_discriminant := Some {| disc_value := 1; disc_bytes := Some [1; 8] |} |};
     ixa_accounts := ["counter"; "authority"] |}.

Definition counter_idl : IdlProgram :=
  {| idl_prog_name := "counter"; idl_instructions := [increment_ix; decrement_ix] |}.

Definition increment_call : @ParsedInstruction string :=
  {| pi_program_id := "Counter111";
     pi_accounts := ["CounterAcct"; "11111111111111111111111111111111"; "Counter111"];
     pi_data := [1; 8; 5] |}.

(* ================================================================= *)
(** * Properties *)
(* ================================================================= *)

(** ** Discriminator hashing *)

(** C7 (counterexample): for the instruction [houseInitialize] without a
    discriminant, the tag the code derives is not the hash of the verbatim
    name [global:houseInitialize]; it is the hash of
    [global:house_initialize]. *)
Lemma discriminator_from_ix_not_verbatim :
  discriminator_from_ix house_initialize_ix = [141; 83; 125; 115; 162; 152; 81; 231] /\
  discriminator_from_ix house_initialize_ix <> discriminator_verbatim house_initialize_ix.
Proof.
  split.
  - vm_compute. reflexivity.
  - vm_compute. discriminate.
Qed.

(** C7 (amended): the instruction tag is the explicit [discriminant.bytes]
    when present, else the single byte [discriminant.value] when a
    discriminant is present, else the first 8 bytes of SHA-256 of
    ["global:"] and the snake-cased name; [global:delegate] and
    [global:increment] give the pinned tags, and [houseInitialize] and
    [house_initialize] give the same tag. *)
Theorem discriminator_from_ix_spec :
  (forall name value bytes,
      discriminator_from_ix {| ix_name := name;
        ix_discriminant := Some {| disc_value := value; disc_bytes := Some bytes |} |} = bytes) /\
  (forall name value,
      discriminator_from_ix {| ix_name := name;
        ix_discriminant := Some {| disc_value := value; disc_bytes := None |} |} = [value]) /\
  (forall name,
      discriminator_from_ix {| ix_name := name; ix_discriminant := None |} =
      take 8 (Sha256.hash (bytes_of_string ("global:" ++ Heck.to_snake_case name)%string))) /\
  discriminator_from_ix {| ix_name := "delegate"; ix_discriminant := None |} =
    [90; 147; 75; 178; 85; 88; 4; 137] /\
  discriminator_from_ix {| ix_name := "increment"; ix_discriminant := None |} =
    [11; 18; 104; 9; 104; 174; 59; 33] /\
  discriminator_from_ix {| ix_name := "houseInitialize"; ix_discriminant := None |} =
    discriminator_from_ix {| ix_name := "house_initialize"; ix_discriminant := None |}.
Proof.
  split; [reflexivity|].
  split; [reflexivity|].
  split; [reflexivity|].
  split; [vm_compute; reflexivity|].
  split; vm_compute; reflexivity.
Qed.

(** ** The prefix discriminator *)

Lemma prefix_fold_lookup (accounts : list IdlTypeDefinition)
    (m : gmap (list Z) IdlTypeDefinition) (t : list Z) (d : IdlTypeDefinition) :
  foldl (fun ds a => <[account_discriminator (def_name a) := a]> ds) m accounts !! t = Some d ->
  m !! t = Some d \/ (In d accounts /\ t = account_discriminator (def_name d)).
Proof.
  revert m. induction accounts as [|a rest IH]; intros m Hl; simpl in *.
  - left. exact Hl.
  - destruct (IH _ Hl) as [Hin | [Hin Ht]].
    + apply lookup_insert_Some in Hin as [[<- <-] | [_ Hm]].
      * right. split; [left; reflexivity | reflexivity].
      * left. exact Hm.
    + right. split; [right; exact Hin | exact Ht].
Qed.

Lemma prefix_fold_keeps (accounts : list IdlTypeDefinition)
    (m : gmap (list Z) IdlTypeDefinition) (t : list Z) :
  is_Some (m !! t) ->
  is_Some (foldl (fun ds a => <[account_discriminator (def_name a) := a]> ds) m accounts !! t).
Proof.
  revert m. induction accounts as [|a rest IH]; intros m Hs; simpl; [exact Hs|].
  apply IH. destruct (decide (account_discriminator (def_name a) = t)) as [<-|Hne].
  - rewrite lookup_insert_eq. eauto.
  - rewrite lookup_insert_ne by exact Hne. exact Hs.
Qed.

Lemma prefix_fold_registers (accounts : list IdlTypeDefinition)
    (m : gmap (list Z) IdlTypeDefinition) (d : IdlTypeDefinition) :
  In d accounts ->
  is_Some (foldl (fun ds a => <[account_discriminator (def_name a) := a]> ds) m accounts
             !! account_discriminator (def_name d)).
Proof.
  revert m. induction accounts as [|a rest IH]; intros m Hin; simpl in *; [contradiction|].
  destruct Hin as [-> | Hin].
  - apply prefix_fold_keeps. rewrite lookup_insert_eq. eauto.
  - apply IH. exact Hin.
Qed.

(** C1: the prefix discriminator keys every account by the first 8 bytes of
    SHA-256 of ["account:"] and its name as written; a blob shorter than 8
    bytes fails with [AccountDataTooShortForDiscriminatorBytes(len, 8)]; a
    leading 8 bytes that match no tag fail with
    [UnknownDiscriminatedAccount]; on a match the account's type-definition
    decoder runs on the bytes from offset 8 to the end.  The tag of
    [VaultInfo] is the pinned one. *)
Theorem prefix_discriminator_spec :
  forall (fuel : nat) (opts : JsonSerializationOpts) (de : DeserializeProvider)
         (type_map : TypeDeMap) (accounts : list IdlTypeDefinition)
         (blob : list Z) (out : list Piece),
  (forall t d, prefix_deserializers accounts !! t = Some d ->
               In d accounts /\ t = account_discriminator (def_name d)) /\
  (forall d, In d accounts ->
             is_Some (prefix_deserializers accounts !! account_discriminator (def_name d))) /\
  ((length blob < 8)%nat ->
     prefix_deserialize_account_data fuel opts de type_map accounts blob out =
     Err (AccountDataTooShortForDiscriminatorBytes (length blob) 8)) /\
  ((8 <= length blob)%nat -> prefix_deserializers accounts !! take 8 blob = None ->
     prefix_deserialize_account_data fuel opts de type_map accounts blob out =
     Err (UnknownDiscriminatedAccount (take 8 blob))) /\
  (forall d, (8 <= length blob)%nat -> prefix_deserializers accounts !! take 8 blob = Some d ->
     prefix_deserialize_account_data fuel opts de type_map accounts blob out =
     run_account_deserializer fuel opts de type_map d (drop 8 blob) out) /\
  account_discriminator "VaultInfo" = [133; 250; 161; 78; 246; 27; 55; 187].
Proof.
  intros fuel opts de type_map accounts blob out.
  split; [|split; [|split; [|split; [|split]]]].
  - intros t d Hl. unfold prefix_deserializers in Hl.
    destruct (prefix_fold_lookup _ _ _ _ Hl) as [Hm | H]; [|exact H].
    rewrite lookup_empty in Hm. discriminate.
  - intros d Hin. apply prefix_fold_registers. exact Hin.
  - intros Hlen. unfold prefix_deserialize_account_data.
    apply Nat.ltb_lt in Hlen. rewrite Hlen. reflexivity.
  - intros Hlen Hl. unfold prefix_deserialize_account_data.
    assert (Hb : (length blob <? 8)%nat = false) by (apply Nat.ltb_ge; exact Hlen).
    rewrite Hb, Hl. reflexivity.
  - intros d Hlen Hl. unfold prefix_deserialize_account_data.
    assert (Hb : (length blob <? 8)%nat = false) by (apply Nat.ltb_ge; exact Hlen).
    rewrite Hb, Hl. reflexivity.
  - vm_compute. reflexivity.
Qed.

(** ** The size oracle *)



(** ** NaN-tolerant floats *)

Lemma f64_exponent_bytes_check : all_byte_pairs f64_exponent_agrees = true.
Proof. vm_compute. reflexivity. Qed.

Lemma f32_exponent_bytes_check : all_byte_pairs f32_exponent_agrees = true.
Proof. vm_compute. reflexivity. Qed.

Lemma byte_check_forall (P : Z -> Z -> bool) :
  all_byte_pairs P = true -> forall x y, is_byte x -> is_byte y -> P x y = true.
Proof.
  unfold all_byte_pairs. intros H x y [Hx0 Hx1] [Hy0 Hy1].
  rewrite forallb_forall in H.
  specialize (H (Z.to_nat x)). rewrite forallb_forall in H.
  rewrite <- (Z2Nat.id x), <- (Z2Nat.id y) by lia.
  apply H; apply in_seq; lia.
Qed.

Lemma f64_exponent_bytes (b6 b7 : Z) :
  is_byte b6 -> is_byte b7 ->
  (Z.land (Z.shiftr (b6 + 256 * b7) 4) 0x7FF =? 0x7FF) =
  (Z.land b6 UPPER4_BITS_MASK =? UPPER4_BITS_MASK) && (Z.land b7 LOWER7_BITS_MASK =? LOWER7_BITS_MASK).
Proof.
  intros H6 H7. apply Bool.eqb_prop.
  exact (byte_check_forall f64_exponent_agrees f64_exponent_bytes_check b6 b7 H6 H7).
Qed.

Lemma f32_exponent_bytes (b2 b3 : Z) :
  is_byte b2 -> is_byte b3 ->
  (Z.land (Z.shiftr (b2 + 256 * b3) 7) 0xFF =? 0xFF) = true ->
  (Z.land b3 LOWER7_BITS_MASK =? LOWER7_BITS_MASK) = true.
Proof.
  intros H2 H3 He.
  pose proof (byte_check_forall f32_exponent_agrees f32_exponent_bytes_check b2 b3 H2 H3) as Hc.
  unfold f32_exponent_agrees in Hc. rewrite He in Hc. exact Hc.
Qed.

(** Dropping the low [8 * k] bits of a little-endian value. *)
Lemma shiftr_le_split (lo hi : Z) (k : Z) :
  0 <= k -> 0 <= lo < 2 ^ k -> Z.shiftr (lo + 2 ^ k * hi) k = hi.
Proof.
  intros Hk Hlo. rewrite Z.shiftr_div_pow2 by lia.
  rewrite Z.mul_comm, Z.div_add by lia.
  rewrite Z.div_small by lia. lia.
Qed.

Lemma f32_exponent_le (b0 b1 b2 b3 : Z) :
  is_byte b0 -> is_byte b1 ->
  Z.shiftr (le_value [b0; b1; b2; b3]) 23 = Z.shiftr (b2 + 256 * b3) 7.
Proof.
  intros [? ?] [? ?]. simpl.
  replace (b0 + 256 * (b1 + 256 * (b2 + 256 * (b3 + 256 * 0))))
    with ((b0 + 256 * b1) + 2 ^ 16 * (b2 + 256 * b3)) by (simpl; lia).
  change 23 with (16 + 7). rewrite <- Z.shiftr_shiftr by lia.
  rewrite shiftr_le_split by (simpl; lia). reflexivity.
Qed.

Lemma f64_exponent_le (b0 b1 b2 b3 b4 b5 b6 b7 : Z) :
  is_byte b0 -> is_byte b1 -> is_byte b2 -> is_byte b3 -> is_byte b4 -> is_byte b5 ->
  Z.shiftr (le_value [b0; b1; b2; b3; b4; b5; b6; b7]) 52 = Z.shiftr (b6 + 256 * b7) 4.
Proof.
  intros [? ?] [? ?] [? ?] [? ?] [? ?] [? ?]. simpl.
  set (lo := b0 + 256 * (b1 + 256 * (b2 + 256 * (b3 + 256 * (b4 + 256 * b5))))).
  replace (b0 + 256 * (b1 + 256 * (b2 + 256 * (b3 + 256 * (b4 + 256 * (b5 + 256 * (b6 + 256 * (b7 + 256 * 0))))))))
    with (lo + 2 ^ 48 * (b6 + 256 * b7)) by (subst lo; simpl; lia).
  change 52 with (48 + 4). rewrite <- Z.shiftr_shiftr by lia.
  rewrite shiftr_le_split by (subst lo; simpl; lia). reflexivity.
Qed.

(** C6: a buffer of at least 4 bytes whose byte 3 has its low 7 bits set
    is read as [f32::NAN], consuming 4 bytes; any other buffer of at least
    4 bytes is handed to the standard reader, which then decodes the 4
    little-endian bytes and consumes them.  A buffer of at least 8 bytes
    is always read as an [f64], consuming 8 bytes; the value is a NaN
    exactly when byte 6 has its high 4 bits set and byte 7 its low 7 bits,
    and otherwise it is the standard decode of the 8 bytes. *)
Theorem deserialize_floats_nan_tolerant :
  (forall buf, (4 <= length buf)%nat -> Forall is_byte buf ->
    let nan_tag := Z.land (nth 3 buf 0) LOWER7_BITS_MASK =? LOWER7_BITS_MASK in
    (nan_tag = true ->
       deserialize_f32 buf = Ok (F32_NAN, drop 4 buf) /\ f32_is_nan F32_NAN = true) /\
    (nan_tag = false ->
       deserialize_f32 buf =
         match borsh_f32 buf with
         | Some r => Ok r
         | None => Err (BorshDeserializeFloatError "f32" (take 4 buf))
         end /\
       borsh_f32 buf = Some (le_value (take 4 buf), drop 4 buf))) /\
  (forall buf, (8 <= length buf)%nat -> Forall is_byte buf ->
    let nan_tag := (Z.land (nth 6 buf 0) UPPER4_BITS_MASK =? UPPER4_BITS_MASK)
                   && (Z.land (nth 7 buf 0) LOWER7_BITS_MASK =? LOWER7_BITS_MASK) in
    exists v, deserialize_f64 buf = Ok (v, drop 8 buf) /\
              f64_is_nan v = nan_tag /\
              (nan_tag = false -> borsh_f64 buf = Some (v, drop 8 buf) /\
                                  v = le_value (take 8 buf))).
Proof.
  split.
  - intros buf Hlen Hbytes nan_tag.
    destruct buf as [|b0 [|b1 [|b2 [|b3 rest]]]]; simpl in Hlen; try lia.
    apply Forall_cons in Hbytes as [H0 Hbytes]. apply Forall_cons in Hbytes as [H1 Hbytes].
    apply Forall_cons in Hbytes as [H2 Hbytes]. apply Forall_cons in Hbytes as [H3 _].
    subst nan_tag. unfold deserialize_f32.
    cbn [length Nat.leb nth take drop].
    destruct (Z.land b3 LOWER7_BITS_MASK =? LOWER7_BITS_MASK) eqn:Htag.
    + split; [intros _; split; reflexivity | discriminate].
    + split; [discriminate|]. intros _.
      assert (Hv : borsh_f32 (b0 :: b1 :: b2 :: b3 :: rest) =
                   Some (le_value [b0; b1; b2; b3], rest)).
      { unfold borsh_f32. cbn [length Nat.ltb Nat.leb take drop].
        unfold f32_is_nan. rewrite f32_exponent_le by assumption.
        destruct (Z.land (Z.shiftr (b2 + 256 * b3) 7) 255 =? 255) eqn:He.
        - pose proof (f32_exponent_bytes b2 b3 H2 H3 He) as Hm.
          rewrite Htag in Hm. discriminate.
        - reflexivity. }
      rewrite Hv. split; reflexivity.
  - intros buf Hlen Hbytes nan_tag.
    destruct buf as [|b0 [|b1 [|b2 [|b3 [|b4 [|b5 [|b6 [|b7 rest]]]]]]]]; simpl in Hlen; try lia.
    repeat match goal with
           | H : Forall is_byte (_ :: _) |- _ => apply Forall_cons in H as [? H]
           end.
    subst nan_tag. unfold deserialize_f64.
    cbn [length Nat.leb nth take drop].
    destruct ((Z.land b6 UPPER4_BITS_MASK =? UPPER4_BITS_MASK)
              && (Z.land b7 LOWER7_BITS_MASK =? LOWER7_BITS_MASK)) eqn:Htag.
    + exists F64_NAN. split; [reflexivity|]. split; [reflexivity|]. discriminate.
    + assert (Hnan : f64_is_nan (le_value [b0; b1; b2; b3; b4; b5; b6; b7]) = false).
      { unfold f64_is_nan. rewrite f64_exponent_le by assumption.
        rewrite f64_exponent_bytes by assumption. rewrite Htag. reflexivity. }
      assert (Hv : borsh_f64 (b0 :: b1 :: b2 :: b3 :: b4 :: b5 :: b6 :: b7 :: rest) =
                   Some (le_value [b0; b1; b2; b3; b4; b5; b6; b7], rest)).
      { unfold borsh_f64. cbn [length Nat.ltb Nat.leb take drop].
        rewrite take_0, drop_0, Hnan. reflexivity. }
      exists (le_value [b0; b1; b2; b3; b4; b5; b6; b7]).
      rewrite Hv. split; [reflexivity|]. split; [exact Hnan|].
      intros _. split; reflexivity.
Qed.

(** A float buffer: the f32 tag set ([0x7F] in byte 3) and an f64 that
    decodes to 1.0. *)
Lemma deserialize_floats_nan_tolerant_witness :
  deserialize_f32 [0; 0; 192; 127] = Ok (F32_NAN, []) /\
  (exists v, deserialize_f64 [0; 0; 0; 0; 0; 0; 240; 63; 9] = Ok (v, [9]) /\
             f64_is_nan v = false /\
             (false = false -> borsh_f64 [0; 0; 0; 0; 0; 0; 240; 63; 9] = Some (v, [9]) /\
                               v = le_value [0; 0; 0; 0; 0; 0; 240; 63])).
Proof.
  destruct deserialize_floats_nan_tolerant as [Hf32 Hf64].
  split.
  - apply (Hf32 [0; 0; 192; 127]); [simpl; lia | repeat constructor; unfold is_byte; lia |
                                     reflexivity].
  - apply (Hf64 [0; 0; 0; 0; 0; 0; 240; 63; 9]); [simpl; lia |
                                                  repeat constructor; unfold is_byte; lia].
Defined.

Lemma prefix_discriminator_spec_witness :
  (8 <= length ([133; 250; 161; 78; 246; 27; 55; 187] ++ [7]))%nat /\
  prefix_deserializers [vault_info] !! take 8 ([133; 250; 161; 78; 246; 27; 55; 187] ++ [7])
    = Some vault_info /\
  prefix_deserialize_account_data 3 default_opts Borsh ∅ [vault_info]
    ([133; 250; 161; 78; 246; 27; 55; 187] ++ [7]) [] =
  run_account_deserializer 3 default_opts Borsh ∅ vault_info
    (drop 8 ([133; 250; 161; 78; 246; 27; 55; 187] ++ [7])) [].
Proof.
  assert (Hlen : (8 <= length ([133; 250; 161; 78; 246; 27; 55; 187] ++ [7]))%nat)
    by (simpl; lia).
  assert (Hfind : prefix_deserializers [vault_info] !!
                    take 8 ([133; 250; 161; 78; 246; 27; 55; 187] ++ [7]) = Some vault_info)
    by (vm_compute; reflexivity).
  split; [exact Hlen|]. split; [exact Hfind|].
  destruct (prefix_discriminator_spec 3 default_opts Borsh ∅ [vault_info]
              ([133; 250; 161; 78; 246; 27; 55; 187] ++ [7]) [])
    as (_ & _ & _ & _ & Hrun & _).
  exact (Hrun vault_info Hlen Hfind).
Defined.

(** ** The structural discriminator *)

Lemma matcher_matches_in_bounds (m : Matcher) (buf : list Z) :
  (matcher_offset m + matcher_width m <= length buf)%nat ->
  exists b, matcher_matches m buf = Some b.
Proof.
  intros Hle. destruct m as [offset inner_size | offset]; simpl in *;
    unfold array_ref; rewrite (proj2 (Nat.leb_le _ _) Hle); simpl; eauto.
Qed.

Lemma all_matchers_in_bounds (ms : list Matcher) (buf : list Z) :
  forallb (fun m => (matcher_offset m + matcher_width m <=? length buf)%nat) ms = true ->
  all_matchers ms buf = Some (forallb (fun m => bool_decide (matcher_matches m buf = Some true)) ms).
Proof.
  induction ms as [|m rest IH]; simpl; [reflexivity|].
  intros Hb. apply andb_prop in Hb as [Hm Hrest].
  apply Nat.leb_le in Hm.
  destruct (matcher_matches_in_bounds m buf Hm) as [[|] Hmm]; rewrite Hmm.
  - rewrite (bool_decide_eq_true_2 (Some true = Some true)) by reflexivity. simpl. auto.
  - rewrite (bool_decide_eq_false_2 (Some false = Some true)) by discriminate. reflexivity.
Qed.

Lemma matches_account_in_bounds (d : MatchDiscriminator) (buf : list Z) :
  matchers_in_bounds d = true -> matches_account d buf = Some (is_candidate buf d).
Proof.
  unfold matches_account, is_candidate, matchers_in_bounds. intros Hin.
  destruct (length buf <? min_total_size d)%nat eqn:Hlt.
  - apply Nat.ltb_lt in Hlt. rewrite (proj2 (Nat.leb_gt _ _) Hlt). reflexivity.
  - apply Nat.ltb_ge in Hlt. rewrite (proj2 (Nat.leb_le _ _) Hlt). simpl.
    apply all_matchers_in_bounds.
    apply forallb_forall. intros m Hm.
    pose proof (proj1 (forallb_forall _ _) Hin m Hm) as Hb. simpl in Hb.
    apply Nat.leb_le in Hb. apply Nat.leb_le. lia.
Qed.

Lemma collect_candidates_in_bounds (ds : list MatchDiscriminator) (buf : list Z) :
  forallb matchers_in_bounds ds = true ->
  collect_candidates ds buf =
  Some (match List.find (fun d => (min_total_size d =? length buf)%nat) (candidates ds buf) with
        | Some d => inl d
        | None => inr (candidates ds buf)
        end).
Proof.
  unfold candidates.
  induction ds as [|d rest IH]; simpl; [reflexivity|].
  intros Hb. apply andb_prop in Hb as [Hd Hrest].
  rewrite (matches_account_in_bounds d buf Hd).
  destruct (is_candidate buf d) eqn:Hc; simpl.
  - destruct (min_total_size d =? length buf)%nat eqn:He; [reflexivity|].
    rewrite (IH Hrest).
    destruct (List.find _ (List.filter _ rest)); reflexivity.
  - exact (IH Hrest).
Qed.

Lemma best_candidate_from (b : MatchDiscriminator) (rest : list MatchDiscriminator) :
  best_candidate rest (Some b) =
  List.find (fun d => (length (matchers d) =? max_matchers (b :: rest))%nat) (b :: rest).
Proof.
  revert b. induction rest as [|c rest IH]; intros b; simpl.
  - rewrite Nat.max_0_r, Nat.eqb_refl. reflexivity.
  - destruct (length (matchers b) <? length (matchers c))%nat eqn:Hlt.
    + apply Nat.ltb_lt in Hlt. rewrite IH. simpl.
      assert (Hmax : Nat.max (length (matchers b)) (Nat.max (length (matchers c)) (max_matchers rest))
                     = Nat.max (length (matchers c)) (max_matchers rest)) by lia.
      rewrite Hmax.
      destruct (length (matchers b) =? _)%nat eqn:Hb; [apply Nat.eqb_eq in Hb; lia|].
      reflexivity.
    + apply Nat.ltb_ge in Hlt. rewrite IH. simpl.
      assert (Hmax : Nat.max (length (matchers b)) (Nat.max (length (matchers c)) (max_matchers rest))
                     = Nat.max (length (matchers b)) (max_matchers rest)) by lia.
      rewrite Hmax.
      destruct (length (matchers b) =? _)%nat eqn:Hb; [reflexivity|].
      apply Nat.eqb_neq in Hb.
      destruct (length (matchers c) =? _)%nat eqn:Hc; [apply Nat.eqb_eq in Hc; lia|].
      reflexivity.
Qed.

Lemma best_candidate_first_max (cs : list MatchDiscriminator) :
  best_candidate cs None =
  List.find (fun d => (length (matchers d) =? max_matchers cs)%nat) cs.
Proof.
  destruct cs as [|c rest]; [reflexivity|]. simpl best_candidate.
  apply best_candidate_from.
Qed.

Lemma insert_by_size_head (a d : MatchDiscriminator) (l : list MatchDiscriminator) :
  ByMinTotalSize a d -> HdRel ByMinTotalSize a l -> HdRel ByMinTotalSize a (insert_by_size d l).
Proof.
  intros Had Hl. destruct l as [|b l]; simpl.
  - constructor. exact Had.
  - destruct (min_total_size d <=? min_total_size b)%nat; constructor; [exact Had|].
    inversion Hl. assumption.
Qed.

Lemma insert_by_size_sorted (d : MatchDiscriminator) (l : list MatchDiscriminator) :
  Sorted ByMinTotalSize l -> Sorted ByMinTotalSize (insert_by_size d l).
Proof.
  induction l as [|b l IH]; intros Hs; simpl.
  - repeat constructor.
  - destruct (min_total_size d <=? min_total_size b)%nat eqn:Hle.
    + apply Nat.leb_le in Hle. constructor; [exact Hs|]. constructor. exact Hle.
    + apply Nat.leb_gt in Hle. inversion Hs as [|? ? Hs' Hhd]; subst.
      constructor; [exact (IH Hs')|].
      apply insert_by_size_head; [unfold ByMinTotalSize; lia | exact Hhd].
Qed.

Lemma sort_by_min_total_size_sorted (ds : list MatchDiscriminator) :
  Sorted ByMinTotalSize (sort_by_min_total_size ds).
Proof.
  induction ds as [|d rest IH]; simpl; [constructor|].
  apply insert_by_size_sorted. exact IH.
Qed.

Lemma find_matching_disc_in_bounds (ds : list MatchDiscriminator) (buf : list Z) :
  forallb matchers_in_bounds ds = true ->
  find_matching_disc ds buf = Some (select_spec buf (candidates ds buf)).
Proof.
  intros Hb. unfold find_matching_disc, select_spec.
  rewrite (collect_candidates_in_bounds ds buf Hb).
  destruct (List.find _ (candidates ds buf)); [reflexivity|].
  rewrite best_candidate_first_max. reflexivity.
Qed.

(** C2 (amended): let the discriminators be built from the accounts (they
    are then in ascending [min_total_size] order) and read in bounds.  For a
    blob, with [C] the accounts whose [min_total_size] is at most its length
    and whose matchers all match: the first account of [C] whose size is the
    blob's length is selected, else the first account of [C] with the most
    matchers.  For a non-empty blob the selected account's decoder reads the
    whole blob, and an empty [C] fails with
    [CannotFindDeserializerForAccount]; an empty blob fails with
    [AccountDataTooShortForDiscriminatorBytes(0, 1)]. *)
Theorem match_discriminator_select (fuel : nat) (accounts : list IdlTypeDefinition)
    (type_map : TypeMap) (buf : list Z) {A : Type} (by_name : string -> list Z -> Outcome A) :
  forallb matchers_in_bounds (MatchDiscriminators_from fuel accounts type_map) = true ->
  let ds := MatchDiscriminators_from fuel accounts type_map in
  Sorted ByMinTotalSize ds /\
  find_matching_disc ds buf = Some (select_spec buf (candidates ds buf)) /\
  (buf <> [] -> forall d, select_spec buf (candidates ds buf) = Some d ->
     match_deserialize_account_data by_name ds buf = by_name (def_name (account d)) buf) /\
  (buf <> [] -> candidates ds buf = [] ->
     match_deserialize_account_data by_name ds buf = Err CannotFindDeserializerForAccount) /\
  match_deserialize_account_data by_name ds [] = Err (AccountDataTooShortForDiscriminatorBytes 0 1).
Proof.
  intros Hb ds.
  pose proof (find_matching_disc_in_bounds ds buf Hb) as Hfind.
  split; [apply sort_by_min_total_size_sorted|].
  split; [exact Hfind|].
  split.
  - intros Hne d Hsel. unfold match_deserialize_account_data, find_match_name.
    rewrite Hfind, Hsel. destruct buf; [congruence | reflexivity].
  - split; [|reflexivity].
    intros Hne Hempty. unfold match_deserialize_account_data, find_match_name.
    rewrite Hfind, Hempty. destruct buf; [congruence | reflexivity].
Qed.

(** The accounts [A { a: bool, b: bool }] and [B { a: bool, b: u32 }]
    and a blob of 5 bytes: [B] is selected. *)
Lemma match_discriminator_select_witness :
  forallb matchers_in_bounds (MatchDiscriminators_from 2 [account_a; account_b] ∅) = true /\
  find_matching_disc (MatchDiscriminators_from 2 [account_a; account_b] ∅) [1; 0; 0; 0; 0] =
    Some (select_spec [1; 0; 0; 0; 0]
            (candidates (MatchDiscriminators_from 2 [account_a; account_b] ∅) [1; 0; 0; 0; 0])) /\
  match_deserialize_account_data accept_by_name
    (MatchDiscriminators_from 2 [account_a; account_b] ∅) [1; 0; 0; 0; 0] =
    accept_by_name "B" [1; 0; 0; 0; 0].
Proof.
  assert (Hb : forallb matchers_in_bounds (MatchDiscriminators_from 2 [account_a; account_b] ∅) = true)
    by (vm_compute; reflexivity).
  destruct (match_discriminator_select 2 [account_a; account_b] ∅ [1; 0; 0; 0; 0] accept_by_name Hb)
    as (_ & Hfind & Hsel & _ & _).
  split; [exact Hb|]. split; [exact Hfind|].
  apply (Hsel ltac:(discriminate)
           {| account := account_b; min_total_size := 5%nat; matchers := [MBool 0] |}).
  vm_compute. reflexivity.
Defined.

(** C2 counterexample: the empty blob has no candidate, yet the decoder
    fails with [AccountDataTooShortForDiscriminatorBytes(0, 1)] and not
    with [CannotFindDeserializerForAccount]. *)
Lemma match_discriminator_empty_blob :
  candidates (MatchDiscriminators_from 2 [account_a; account_b] ∅) [] = [] /\
  match_deserialize_account_data accept_by_name
    (MatchDiscriminators_from 2 [account_a; account_b] ∅) [] =
    Err (AccountDataTooShortForDiscriminatorBytes 0 1).
Proof. split; vm_compute; reflexivity. Qed.

(** C3 (code): a field of unknown size is passed over rather than ending
    the walk.  For [StringBool { a: String, b: bool, c: u8 }] the sizes
    are those of [b] and [c] at offsets 0 and 1, the offsets are paired
    with the fields from [a] on, so [b]'s bool matcher gets [c]'s offset 1,
    and the account is kept; stopping at [a], as specified, leaves no
    matcher and excludes it. *)
Theorem match_discriminator_new_skips_unknown :
  base_account_sizes 1 account_string_bool ∅ = Some ([1; 1]%nat, [0; 1]%nat) /\
  MatchDiscriminator_new 1 account_string_bool ∅ =
    Some {| account := account_string_bool; min_total_size := 2; matchers := [MBool 1] |} /\
  MatchDiscriminator_new_stopping 1 account_string_bool ∅ = None.
Proof. split; [|split]; vm_compute; reflexivity. Qed.

(** C10 (code): for [StringCOption { a: String, b: COption<u8>, c: u8 }]
    the [COption] matcher is placed at [c]'s offset 5 while the minimum
    size is 6, so it reads past the end of a 6-byte blob: [array_ref!]
    panics while classifying it. *)
Theorem match_discriminator_reads_out_of_bounds :
  MatchDiscriminators_from 1 [account_string_coption] ∅ =
    [{| account := account_string_coption; min_total_size := 6; matchers := [MCOption 5 1] |}] /\
  forallb matchers_in_bounds (MatchDiscriminators_from 1 [account_string_coption] ∅) = false /\
  find_match_name (MatchDiscriminators_from 1 [account_string_coption] ∅) [0; 0; 0; 0; 0; 0] = None /\
  match_deserialize_account_data accept_by_name
    (MatchDiscriminators_from 1 [account_string_coption] ∅) [0; 0; 0; 0; 0; 0] = Panic.
Proof. split; [|split; [|split]]; vm_compute; reflexivity. Qed.

(** C4 (code): under the spl convention a [COption] tag of four zero
    bytes skips the size of the inner type as computed without the
    registry of named types.  [COption<u8>] is read as specified (absent:
    [null] and 5 bytes; present: the inner value; other tags refused), but
    for [COption<Foo>] with [Foo { x: u8 }] registered, whose size the
    oracle with the registry knows to be 1, reading fails. *)
Theorem spl_coption_ignores_registry :
  deserialize_type default_opts Spl {["Foo" := mk_struct "Foo" [mk_field "x" U8]]} 3
    (COption U8) [0; 0; 0; 0; 7; 9] [] = Ok (tt, [9], [PStr "null"]) /\
  deserialize_type default_opts Spl {["Foo" := mk_struct "Foo" [mk_field "x" U8]]} 3
    (COption U8) [1; 0; 0; 0; 7; 9] [] = Ok (tt, [9], [PInt 7]) /\
  deserialize_type default_opts Spl {["Foo" := mk_struct "Foo" [mk_field "x" U8]]} 3
    (COption U8) [2; 0; 0; 0; 7; 9] [] =
    Err (InvalidDataToDeserialize "coption" "invalid tag" [2; 0; 0; 0]) /\
  idl_type_bytes 1 (Defined "Foo") (Some {["Foo" := Struct [mk_field "x" U8]]}) = Some 1%nat /\
  deserialize_type default_opts Spl {["Foo" := mk_struct "Foo" [mk_field "x" U8]]} 3
    (COption (Defined "Foo")) [0; 0; 0; 0; 0] [] =
    Err (InvalidDataToDeserialize "coption"
           "byte size of inner type needs to be known when it is None" [0]).
Proof. repeat split; vm_compute; reflexivity. Qed.

(** ** The IDL container *)

Section IdlRoundTrip.

Variable Idl : Type.
Variable serde_json_to_vec : Idl -> option (list Z).
Variable try_extract_classic_idl : list Z -> option Idl.
Variable zip_bytes : list Z -> option (list Z).
Variable unzip_bytes : list Z -> option (list Z).

(** The laws of the collaborators: inflating a zlib stream gives back
    what was deflated, and parsing the JSON written for an IDL gives back
    that IDL. *)
Hypothesis unzip_zip : forall json zipped, zip_bytes json = Some zipped -> unzip_bytes zipped = Some json.
Hypothesis parse_serialized : forall idl json,
  serde_json_to_vec idl = Some json -> try_extract_classic_idl json = Some idl.


End IdlRoundTrip.


(** ** Options and the wire *)

Create HintDb wire.

Lemma writes_only_write (p : Piece) : writes_only (write p).
Proof. intros buf out. eexists. reflexivity. Qed.

Lemma writes_only_ret : writes_only (ret tt).
Proof. intros buf out. eexists. reflexivity. Qed.

Lemma writes_only_bind (m : M unit) (k : unit -> M unit) :
  writes_only m -> (forall u, writes_only (k u)) -> writes_only (bind m k).
Proof.
  intros Hm Hk buf out. unfold bind.
  destruct (Hm buf out) as [out' ->]. apply Hk.
Qed.

Lemma writes_only_write_quoted (p : Piece) : writes_only (write_quoted p).
Proof.
  unfold write_quoted.
  repeat (apply writes_only_bind; [apply writes_only_write | intros _]).
  apply writes_only_write.
Qed.

#[local] Hint Resolve writes_only_write writes_only_ret writes_only_write_quoted : wire.














(* ================================================================= *)
(** * Further properties of the code *)
(* ================================================================= *)

(** ** Bytes read by the decoder *)

Lemma consumes_bind_dep {A B} (m : M A) (k : A -> M B) (f g : A -> nat) (n : nat) :
  (forall buf out a rest out', m buf out = Ok (a, rest, out') ->
     (f a <= length buf)%nat /\ rest = drop (f a) buf) ->
  (forall a, consumes (k a) (g a)) ->
  (forall a, (f a + g a)%nat = n) ->
  consumes (bind m k) n.
Proof.
  intros Hm Hk Hn buf out b rest out' H. unfold bind in H.
  destruct (m buf out) as [[[a r1] o1]|e|] eqn:Hmb; try discriminate.
  destruct (Hm _ _ _ _ _ Hmb) as [Hle ->].
  destruct (Hk a _ _ _ _ _ H) as [Hle2 ->].
  rewrite length_drop in Hle2. rewrite drop_drop, <- (Hn a). split; [lia | reflexivity].
Qed.

Lemma consumes_bind {A B} (m : M A) (k : A -> M B) (a b : nat) :
  consumes m a -> (forall x, consumes (k x) b) -> consumes (bind m k) (a + b).
Proof.
  intros Hm Hk. apply (consumes_bind_dep m k (fun _ => a) (fun _ => b)); auto.
Qed.

Lemma consumes_writes_only (m : M unit) : writes_only m -> consumes m 0.
Proof.
  intros Hw buf out a rest out' H. destruct (Hw buf out) as [o Ho].
  rewrite Ho in H. injection H as <- <- <-. split; [lia | reflexivity].
Qed.

Lemma consumes_read {A} (r : Reader A) (n : nat) : reader_consumes r n -> consumes (read r) n.
Proof.
  intros Hr buf out a rest out' H. unfold read in H.
  destruct (r buf) as [[x r1]|e|] eqn:Hrb; try discriminate.
  injection H as <- <- <-. exact (Hr _ _ _ Hrb).
Qed.

Lemma consumes_map_err {A} (f : ChainparserError -> ChainparserError) (m : M A) (n : nat) :
  consumes m n -> consumes (map_err f m) n.
Proof.
  intros Hm buf out a rest out' H. unfold map_err in H.
  destruct (m buf out) as [[[x r1] o1]|e|] eqn:Hmb; try discriminate.
  injection H as -> -> ->. exact (Hm _ _ _ _ _ Hmb).
Qed.

Lemma consumes_throw {A} (e : ChainparserError) (n : nat) : consumes (@throw A e) n.
Proof. intros buf out a rest out' H. discriminate. Qed.

Lemma consumes_panic {A} (n : nat) : consumes (@panic A) n.
Proof. intros buf out a rest out' H. discriminate. Qed.

Lemma consumes_for_range (i count : nat) (body : nat -> M unit) (x : nat) :
  (forall j, consumes (body j) x) -> consumes (for_range i count body) (count * x).
Proof.
  intros Hb. revert i. induction count as [|c IH]; intros i; simpl.
  - apply consumes_writes_only, writes_only_ret.
  - apply consumes_bind; [apply Hb | intros _; apply IH].
Qed.

Lemma consumes_separator (i len : nat) (sep : string) : consumes (separator i len sep) 0.
Proof.
  unfold separator. destruct (_ <? _)%nat; apply consumes_writes_only;
    [apply writes_only_write | apply writes_only_ret].
Qed.

Lemma consumes_fields (size_of : IdlType -> option nat) (fields : list IdlField)
    (body : nat -> IdlField -> M unit) :
  (forall j field s, In field fields -> size_of (field_ty field) = Some s -> consumes (body j field) s) ->
  forall i acc total, struct_size_loop size_of fields acc = Some total ->
  (acc <= total)%nat /\ consumes (for_enumerate i fields body) (total - acc).
Proof.
  induction fields as [|fd rest IH]; intros Hb i acc total Hl; simpl in Hl |- *.
  - injection Hl as <-. split; [lia|].
    replace (acc - acc)%nat with 0%nat by lia. apply consumes_writes_only, writes_only_ret.
  - destruct (size_of (field_ty fd)) as [s|] eqn:Hs; [|discriminate].
    destruct (IH (fun j f s' Hin => Hb j f s' (or_intror Hin)) (S i) (acc + s)%nat total Hl)
      as [Hle Hc].
    split; [lia|].
    replace (total - acc)%nat with (s + (total - (acc + s)))%nat by lia.
    apply consumes_bind; [apply (Hb i fd s (or_introl eq_refl) Hs) | intros _; exact Hc].
Qed.

Lemma consumes_bind_l {A B} (m : M A) (k : A -> M B) (b : nat) :
  consumes m 0 -> (forall x, consumes (k x) b) -> consumes (bind m k) b.
Proof. intros Hm Hk. exact (consumes_bind m k 0 b Hm Hk). Qed.

Lemma consumes_bind_r {A B} (m : M A) (k : A -> M B) (a : nat) :
  consumes m a -> (forall x, consumes (k x) 0) -> consumes (bind m k) a.
Proof.
  intros Hm Hk. pose proof (consumes_bind m k a 0 Hm Hk) as H. rewrite Nat.add_0_r in H. exact H.
Qed.

Lemma borsh_uint_consumes (n : nat) (buf rest : list Z) (v : Z) :
  borsh_uint n buf = Some (v, rest) -> (n <= length buf)%nat /\ rest = drop n buf.
Proof.
  unfold borsh_uint. destruct (length buf <? n)%nat eqn:Hlt; [discriminate|].
  apply Nat.ltb_ge in Hlt. intros H. injection H as _ <-. auto.
Qed.

Lemma de_uint_consumes (kind : string) (n : nat) (de : DeserializeProvider) :
  reader_consumes (de_uint kind n de) n.
Proof.
  intros buf a rest H. unfold de_uint, borsh_typed in H.
  destruct (borsh_uint n buf) as [[v r]|] eqn:Hb; [|discriminate].
  injection H as _ <-. exact (borsh_uint_consumes _ _ _ _ Hb).
Qed.

Lemma de_int_consumes (kind : string) (n : nat) (de : DeserializeProvider) :
  reader_consumes (de_int kind n de) n.
Proof.
  intros buf a rest H. unfold de_int, borsh_typed, borsh_int in H.
  destruct (borsh_uint n buf) as [[v r]|] eqn:Hb; [|discriminate].
  injection H as _ <-. exact (borsh_uint_consumes _ _ _ _ Hb).
Qed.

Lemma borsh_u8_io_consumes : reader_consumes borsh_u8_io 1.
Proof.
  intros buf a rest H. unfold borsh_u8_io in H.
  destruct (borsh_uint 1 buf) as [[v r]|] eqn:Hb; [|discriminate].
  injection H as _ <-. exact (borsh_uint_consumes _ _ _ _ Hb).
Qed.

Lemma borsh_bool_consumes : reader_consumes borsh_bool 1.
Proof.
  intros buf a rest H. unfold borsh_bool in H.
  destruct (borsh_uint 1 buf) as [[v r]|] eqn:Hb; [|discriminate].
  destruct (v =? 0); [|destruct (v =? 1)]; try discriminate;
    injection H as _ <-; exact (borsh_uint_consumes _ _ _ _ Hb).
Qed.

Lemma deserialize_f32_consumes : reader_consumes deserialize_f32 4.
Proof.
  intros buf a rest H. unfold deserialize_f32, borsh_f32 in H.
  destruct (4 <=? length buf)%nat eqn:H4.
  - apply Nat.leb_le in H4.
    destruct (_ =? LOWER7_BITS_MASK); [injection H as _ <-; auto|].
    destruct (length buf <? 4)%nat; [discriminate|].
    destruct (f32_is_nan _); [discriminate|]. injection H as _ <-. auto.
  - apply Nat.leb_gt in H4. rewrite (proj2 (Nat.ltb_lt _ _) H4) in H. discriminate.
Qed.

Lemma deserialize_f64_consumes : reader_consumes deserialize_f64 8.
Proof.
  intros buf a rest H. unfold deserialize_f64, borsh_f64 in H.
  destruct (8 <=? length buf)%nat eqn:H8.
  - apply Nat.leb_le in H8.
    destruct (_ && _); [injection H as _ <-; auto|].
    destruct (length buf <? 8)%nat; [discriminate|].
    destruct (f64_is_nan _); [discriminate|]. injection H as _ <-. auto.
  - apply Nat.leb_gt in H8. rewrite (proj2 (Nat.ltb_lt _ _) H8) in H. discriminate.
Qed.

Lemma de_pubkey_consumes (de : DeserializeProvider) : reader_consumes (de_pubkey de) 32.
Proof.
  intros buf a rest H. destruct de; simpl in H; unfold borsh_pubkey, spl_pubkey in H;
    destruct (length buf <? 32)%nat eqn:Hlt; try discriminate;
    apply Nat.ltb_ge in Hlt; injection H as _ <-; auto.
Qed.

(** With no map, the oracle never reaches a [Defined] name, so its answer
    does not depend on the map nor on how definitions are sized. *)
Lemma idl_type_bytes_with_no_map (d1 d2 : IdlTypeDefinitionTy -> option nat)
    (ty : IdlType) (m : option TypeMap) (b : nat) :
  idl_type_bytes_with d1 ty None = Some b -> idl_type_bytes_with d2 ty m = Some b.
Proof.
  revert b. induction ty; intros b H; simpl in H |- *; try exact H; try discriminate.
  - destruct (idl_type_bytes_with d1 ty None) as [x|]; [|discriminate].
    rewrite (IHty x eq_refl). exact H.
  - destruct (idl_type_bytes_with d1 ty None) as [x|]; [|discriminate].
    rewrite (IHty x eq_refl). exact H.
Qed.

Lemma spl_coption_consumes (inner : IdlType) (d : IdlTypeDefinitionTy -> option nat)
    (m : option TypeMap) (x : nat) :
  idl_type_bytes_with d inner m = Some x ->
  forall buf present rest, spl_coption inner buf = Ok (present, rest) ->
  ((if present then 4 else 4 + x) <= length buf)%nat /\
  rest = drop (if present then 4 else 4 + x) buf.
Proof.
  intros Hx buf present rest H. unfold spl_coption in H.
  destruct (length buf <? 4)%nat eqn:Hlt; [discriminate|]. apply Nat.ltb_ge in Hlt.
  destruct (bool_decide (take 4 buf = [0; 0; 0; 0])).
  - unfold idl_type_bytes in H.
    destruct (idl_type_bytes_with _ inner None) as [bl|] eqn:Hbl; [|discriminate].
    rewrite (idl_type_bytes_with_no_map _ d inner m bl Hbl) in Hx. injection Hx as ->.
    destruct (length (drop 4 buf) <? x)%nat eqn:Hl2; [discriminate|].
    apply Nat.ltb_ge in Hl2. rewrite length_drop in Hl2.
    injection H as <- <-. rewrite drop_drop. split; [lia | reflexivity].
  - destruct (bool_decide (take 4 buf = [1; 0; 0; 0])); [|discriminate].
    injection H as <- <-. auto.
Qed.

Ltac consumes_step :=
  cbv beta;
  match goal with
  | |- consumes (bind (write _) _) _ =>
      apply consumes_bind_l; [apply consumes_writes_only, writes_only_write | intros ?]
  | |- consumes (write _) 0 => apply consumes_writes_only, writes_only_write
  | |- consumes (write_quoted _) 0 => apply consumes_writes_only, writes_only_write_quoted
  | |- consumes (ret _) 0 => apply consumes_writes_only, writes_only_ret
  | |- consumes (separator _ _ _) 0 => apply consumes_separator
  | |- consumes (throw _) _ => apply consumes_throw
  | |- consumes (map_err _ _) _ => apply consumes_map_err
  | |- consumes (bind _ _) _ => apply consumes_bind_r; [| intros ?]
  | |- consumes (if ?b then _ else _) _ => destruct b
  end.

Lemma deserialize_consumes (opts : JsonSerializationOpts) (de : DeserializeProvider)
    (tm : TypeDeMap) (fuel : nat) :
  (forall ofuel ty n, idl_type_bytes ofuel ty (Some (def_ty <$> tm)) = Some n ->
     consumes (deserialize_type opts de tm fuel ty) n) /\
  (forall ofuel d n, idl_def_bytes ofuel (def_ty d) (Some (def_ty <$> tm)) = Some n ->
     consumes (deserialize_def opts de tm fuel d) n) /\
  (forall ofuel field n, idl_type_bytes ofuel (field_ty field) (Some (def_ty <$> tm)) = Some n ->
     consumes (deserialize_field opts de tm fuel field) n) /\
  (forall v, variant_fields v = None -> consumes (deserialize_variant opts de tm fuel v) 0).
Proof.
  induction fuel as [|f (IHty & IHdef & IHfield & IHvariant)].
  { split; [|split; [|split]]; intros ? ? ? ?; apply consumes_panic. }
  split; [|split; [|split]].
  - intros ofuel ty n H.
    destruct ty; unfold idl_type_bytes in H; cbn [idl_type_bytes_with] in H;
      try discriminate; simpl deserialize_type.
    all: try (injection H as <-;
              try destruct (n64_as_string opts); try destruct (n128_as_string opts);
              (apply consumes_bind_r;
               [apply consumes_read;
                first [ apply de_uint_consumes | apply de_int_consumes
                      | apply deserialize_f32_consumes | apply deserialize_f64_consumes
                      | apply borsh_bool_consumes | apply de_pubkey_consumes ]
               | intros ?; repeat consumes_step ])).
    + (* Array *)
      destruct (idl_type_bytes_with _ ty _) as [x|] eqn:Hx; [|discriminate].
      injection H as <-. consumes_step. consumes_step.
      * rewrite Nat.mul_comm. apply consumes_for_range. intros j.
        consumes_step; [consumes_step; exact (IHty ofuel ty x Hx) | consumes_step].
      * consumes_step.
    + (* COption *)
      destruct (idl_type_bytes_with _ ty _) as [x|] eqn:Hx; [|discriminate].
      injection H as <-. destruct de.
      * intros buf out a rest out' Hr. discriminate.
      * apply (consumes_bind_dep _ _ (fun p : bool => if p then 4 else 4 + x)%nat
                                     (fun p : bool => if p then x else 0)%nat).
        -- intros buf out p rest out' Hr. unfold read in Hr.
           destruct (de_coption Spl ty buf) as [[p' r']|e|] eqn:Hc; try discriminate.
           injection Hr as <- <- _. exact (spl_coption_consumes ty _ _ x Hx buf p' r' Hc).
        -- intros [|]; repeat consumes_step. exact (IHty ofuel ty x Hx).
        -- intros [|]; lia.
    + (* Defined *)
      rewrite lookup_fmap in H.
      destruct (tm !! name) as [d|] eqn:Hd; simpl in H; [|discriminate].
      consumes_step. exact (IHdef ofuel d n H).
  - intros ofuel d n H. destruct ofuel as [|of']; [discriminate|].
    simpl deserialize_def. destruct (def_ty d) as [fields|variants] eqn:Hd; simpl in H.
    + consumes_step. unfold deserialize_fields_to_object. consumes_step. consumes_step.
      * destruct (consumes_fields _ fields
                    (fun i field => deserialize_field opts de tm f field ;;
                                    if (i + 1 <? length fields)%nat then write (PStr ",")
                                    else ret tt)
                    ltac:(intros j field s _ Hs; consumes_step;
                          [exact (IHfield of' field s Hs)
                          | destruct (_ <? _)%nat; consumes_step])
                    0 0 n H) as [_ Hc].
        rewrite Nat.sub_0_r in Hc. exact Hc.
      * consumes_step.
    + destruct (forallb _ variants) eqn:Hall; [|discriminate]. injection H as <-.
      apply consumes_bind_r; [apply consumes_read, borsh_u8_io_consumes | intros disc].
      consumes_step.
      destruct (nth_error variants (Z.to_nat disc)) as [v|] eqn:Hv; [|consumes_step].
      apply IHvariant.
      pose proof (proj1 (forallb_forall _ _) Hall v (nth_error_In _ _ Hv)) as Hn.
      simpl in Hn. destruct (variant_fields v); [discriminate | reflexivity].
  - intros ofuel field n H. simpl deserialize_field.
    repeat consumes_step. exact (IHty ofuel _ n H).
  - intros v Hv. simpl deserialize_variant. rewrite Hv. consumes_step.
Qed.

Lemma consumes_collection_body (opts : JsonSerializationOpts) (de : DeserializeProvider)
    (tm : TypeDeMap) (f ofuel : nat) (inner : IdlType) (x : nat) (c : string) (len : nat)
    (opening closing : string) :
  idl_type_bytes ofuel inner (Some (def_ty <$> tm)) = Some x ->
  consumes (write (PStr opening) ;;
            for_range 0 len (fun i =>
              map_err (CompositeDeserializeError c [i; len])
                (deserialize_type opts de tm f inner) ;;
              separator i len ", ") ;;
            write (PStr closing)) (len * x).
Proof.
  intros Hx. destruct (deserialize_consumes opts de tm f) as [IHty _].
  consumes_step. consumes_step; [|consumes_step].
  apply consumes_for_range. intros j.
  consumes_step; [consumes_step; exact (IHty ofuel inner x Hx) | consumes_step].
Qed.

Lemma consumes_map_body (opts : JsonSerializationOpts) (de : DeserializeProvider)
    (tm : TypeDeMap) (f ofuel : nat) (k v : IdlType) (x y : nat) (len : nat) :
  idl_type_bytes ofuel k (Some (def_ty <$> tm)) = Some x ->
  idl_type_bytes ofuel v (Some (def_ty <$> tm)) = Some y ->
  consumes (write (PStr "{") ;;
            for_range 0 len (fun i =>
              write (PStr quote) ;;
              map_err (CompositeDeserializeError "Key HashMap" [i; len])
                (deserialize_type opts de tm f k) ;;
              write (PStr (quote ++ ": ")) ;;
              map_err (CompositeDeserializeError "Val HashMap" [i; len])
                (deserialize_type opts de tm f v) ;;
              separator i len ", ") ;;
            write (PStr "}")) (len * (x + y)).
Proof.
  intros Hx Hy. destruct (deserialize_consumes opts de tm f) as [IHty _].
  consumes_step. consumes_step; [|consumes_step].
  apply consumes_for_range. intros j.
  consumes_step. apply consumes_bind; [consumes_step; exact (IHty ofuel k x Hx) | intros _].
  consumes_step. apply consumes_bind_r; [consumes_step; exact (IHty ofuel v y Hy) | intros _].
  consumes_step.
Qed.

Lemma read_u32_then (de : DeserializeProvider) (k : Z -> M unit) (buf : list Z) (out : list Piece)
    (u : unit) (rest : list Z) (out' : list Piece) (g : nat -> nat) :
  (forall len, consumes (k len) (g (Z.to_nat len))) ->
  bind (read (de_uint "u32" 4 de)) k buf out = Ok (u, rest, out') ->
  (4 + g (Z.to_nat (le_value (take 4 buf))) <= length buf)%nat /\
  rest = drop (4 + g (Z.to_nat (le_value (take 4 buf)))) buf.
Proof.
  intros Hk H. unfold bind, read, de_uint, borsh_typed, borsh_uint in H.
  destruct (length buf <? 4)%nat eqn:Hlt; [discriminate|]. apply Nat.ltb_ge in Hlt.
  destruct (Hk _ _ _ _ _ _ H) as [Hle ->].
  rewrite length_drop in Hle. rewrite drop_drop. split; [lia | reflexivity].
Qed.

(** X1: a successful decode of a [Vec], [HashSet] or [BTreeSet] of a
    fixed-size element (size [x]) reads the 4-byte length [len] and then
    exactly [len * x] bytes; a [HashMap] or [BTreeMap] of fixed-size keys
    and values reads [4 + len * (x + y)] bytes. *)
Theorem length_prefixed_consumes (opts : JsonSerializationOpts) (de : DeserializeProvider)
    (tm : TypeDeMap) (fuel ofuel : nat) (k v : IdlType) (x y : nat)
    (buf : list Z) (out : list Piece) (u : unit) (rest : list Z) (out' : list Piece) :
  idl_type_bytes ofuel k (Some (def_ty <$> tm)) = Some x ->
  idl_type_bytes ofuel v (Some (def_ty <$> tm)) = Some y ->
  let len := Z.to_nat (le_value (take 4 buf)) in
  (forall ty, In ty [Vec k; HashSet k; BTreeSet k] ->
     deserialize_type opts de tm fuel ty buf out = Ok (u, rest, out') ->
     (4 + len * x <= length buf)%nat /\ rest = drop (4 + len * x) buf) /\
  (forall ty, In ty [HashMap k v; BTreeMap k v] ->
     deserialize_type opts de tm fuel ty buf out = Ok (u, rest, out') ->
     (4 + len * (x + y) <= length buf)%nat /\ rest = drop (4 + len * (x + y)) buf).
Proof.
  intros Hx Hy len. split; intros ty Hin H;
    (destruct fuel as [|f]; [simpl in H; discriminate|]).
  - destruct Hin as [<-|[<-|[<-|[]]]]; simpl deserialize_type in H;
      refine (read_u32_then de _ buf out u rest out' (fun l => l * x)%nat _ H);
      intros l; apply consumes_collection_body with (ofuel := ofuel); exact Hx.
  - destruct Hin as [<-|[<-|[]]]; simpl deserialize_type in H;
      refine (read_u32_then de _ buf out u rest out' (fun l => l * (x + y))%nat _ H);
      intros l; apply consumes_map_body with (ofuel := ofuel); assumption.
Qed.

(** X2: when the size oracle gives a size [n] for a type, a successful
    decode of that type reads exactly [n] bytes: the buffer held at least
    [n] bytes and the cursor is left at [drop n buf]. *)
Theorem deserialize_type_consumes_oracle_size (opts : JsonSerializationOpts)
    (de : DeserializeProvider) (tm : TypeDeMap) (fuel ofuel : nat) (ty : IdlType) (n : nat)
    (buf : list Z) (out : list Piece) (u : unit) (rest : list Z) (out' : list Piece) :
  idl_type_bytes ofuel ty (Some (def_ty <$> tm)) = Some n ->
  deserialize_type opts de tm fuel ty buf out = Ok (u, rest, out') ->
  (n <= length buf)%nat /\ rest = drop n buf.
Proof.
  intros Hn H. destruct (deserialize_consumes opts de tm fuel) as [Hty _].
  exact (Hty ofuel ty n Hn buf out u rest out' H).
Qed.

Lemma deserialize_type_consumes_oracle_size_witness :
  idl_type_bytes 1 (Array (Defined "Point") 2) (Some (def_ty <$> point_types)) = Some 6%nat /\
  (6 <= length point_bytes)%nat /\ [9] = drop 6 point_bytes.
Proof.
  assert (Hn : idl_type_bytes 1 (Array (Defined "Point") 2) (Some (def_ty <$> point_types))
               = Some 6%nat) by (vm_compute; reflexivity).
  split; [exact Hn|].
  eapply (deserialize_type_consumes_oracle_size default_opts Borsh point_types 5 1
            (Array (Defined "Point") 2) 6 point_bytes [] tt [9]); [exact Hn | reflexivity].
Defined.

Lemma length_prefixed_consumes_witness :
  idl_type_bytes 1 U16 (Some (def_ty <$> point_types)) = Some 2%nat /\
  (4 + 2 * 2 <= length [2; 0; 0; 0; 5; 0; 6; 0; 7])%nat /\
  [7] = drop (4 + 2 * 2) [2; 0; 0; 0; 5; 0; 6; 0; 7].
Proof.
  assert (Hn : idl_type_bytes 1 U16 (Some (def_ty <$> point_types)) = Some 2%nat)
    by (vm_compute; reflexivity).
  split; [exact Hn|].
  edestruct (length_prefixed_consumes default_opts Borsh point_types 5 1 U16 U16 2 2
               [2; 0; 0; 0; 5; 0; 6; 0; 7] [] tt [7]
               [PStr "["; PInt 5; PStr ", "; PInt 6; PStr "]"]) as [Hset _]; [exact Hn | exact Hn |].
  destruct (Hset (Vec U16) (or_introl eq_refl) ltac:(vm_compute; reflexivity)) as [Hle Hrest].
  split; [exact Hle | exact Hrest].
Defined.

Lemma advances_bind {A B} (m : M A) (k : A -> M B) :
  advances m -> (forall a, advances (k a)) -> advances (bind m k).
Proof.
  intros Hm Hk buf out b rest out' H. unfold bind in H.
  destruct (m buf out) as [[[a r1] o1]|e|] eqn:Hmb; try discriminate.
  destruct (Hm _ _ _ _ _ Hmb) as [[k1 ->] [s1 ->]].
  destruct (Hk a _ _ _ _ _ H) as [[k2 ->] [s2 ->]].
  split; [exists (k1 + k2)%nat; apply drop_drop | exists (s1 ++ s2); symmetry; apply app_assoc].
Qed.

Lemma advances_write (p : Piece) : advances (write p).
Proof.
  intros buf out a rest out' H. injection H as _ <- <-.
  split; [exists 0%nat; reflexivity | exists [p]; reflexivity].
Qed.

Lemma advances_ret {A} (x : A) : advances (ret x).
Proof.
  intros buf out a rest out' H. injection H as _ <- <-.
  split; [exists 0%nat; reflexivity | exists []; symmetry; apply app_nil_r].
Qed.

Lemma advances_read {A} (r : Reader A) : reader_advances r -> advances (read r).
Proof.
  intros Hr buf out a rest out' H. unfold read in H.
  destruct (r buf) as [[x r1]|e|] eqn:Hrb; try discriminate.
  injection H as _ <- <-. split; [exact (Hr _ _ _ Hrb) | exists []; symmetry; apply app_nil_r].
Qed.

Lemma advances_map_err {A} (f : ChainparserError -> ChainparserError) (m : M A) :
  advances m -> advances (map_err f m).
Proof.
  intros Hm buf out a rest out' H. unfold map_err in H.
  destruct (m buf out) as [[[x r1] o1]|e|] eqn:Hmb; try discriminate.
  injection H as -> -> ->. exact (Hm _ _ _ _ _ Hmb).
Qed.

Lemma advances_throw {A} (e : ChainparserError) : advances (@throw A e).
Proof. intros buf out a rest out' H. discriminate. Qed.

Lemma advances_panic {A} : advances (@panic A).
Proof. intros buf out a rest out' H. discriminate. Qed.

Lemma advances_for_range (i count : nat) (body : nat -> M unit) :
  (forall j, advances (body j)) -> advances (for_range i count body).
Proof.
  intros Hb. revert i. induction count as [|c IH]; intros i; simpl.
  - apply advances_ret.
  - apply advances_bind; [apply Hb | intros _; apply IH].
Qed.

Lemma advances_for_enumerate {A} (i : nat) (xs : list A) (body : nat -> A -> M unit) :
  (forall j x, advances (body j x)) -> advances (for_enumerate i xs body).
Proof.
  intros Hb. revert i. induction xs as [|x rest IH]; intros i; simpl.
  - apply advances_ret.
  - apply advances_bind; [apply Hb | intros _; apply IH].
Qed.

Lemma reader_consumes_advances {A} (r : Reader A) (n : nat) :
  reader_consumes r n -> reader_advances r.
Proof. intros Hr buf a rest H. exists n. exact (proj2 (Hr _ _ _ H)). Qed.

Lemma borsh_vec_u8_advances (buf bytes rest : list Z) :
  borsh_vec_u8 buf = inl (Some (bytes, rest)) -> exists k, rest = drop k buf.
Proof.
  unfold borsh_vec_u8. destruct (borsh_uint 4 buf) as [[len r]|] eqn:Hb; [|discriminate].
  destruct (borsh_uint_consumes _ _ _ _ Hb) as [_ ->].
  destruct (length (drop 4 buf) <? Z.to_nat len)%nat; [discriminate|].
  intros H. injection H as _ <-. exists (4 + Z.to_nat len)%nat. apply drop_drop.
Qed.

Lemma borsh_string_advances : reader_advances borsh_string.
Proof.
  intros buf a rest H. unfold borsh_string in H.
  destruct (borsh_vec_u8 buf) as [[[bytes r]|]|e] eqn:Hv; try discriminate.
  destruct (utf8_valid bytes); [|discriminate]. injection H as _ <-.
  exact (borsh_vec_u8_advances _ _ _ Hv).
Qed.

Lemma borsh_bytes_advances : reader_advances borsh_bytes.
Proof.
  intros buf a rest H. unfold borsh_bytes in H.
  destruct (borsh_vec_u8 buf) as [[[bytes r]|]|e] eqn:Hv; try discriminate.
  injection H as _ <-. exact (borsh_vec_u8_advances _ _ _ Hv).
Qed.

Lemma de_option_advances (de : DeserializeProvider) : reader_advances (de_option de).
Proof.
  intros buf a rest H. destruct de; simpl in H; [|discriminate].
  unfold borsh_option in H.
  destruct (borsh_typed "u8" (borsh_uint 1) buf) as [[v r]|e|] eqn:Hb; try discriminate.
  injection H as _ <-. exists 1%nat. exact (proj2 (de_uint_consumes "u8" 1 Borsh _ _ _ Hb)).
Qed.

Lemma de_coption_advances (de : DeserializeProvider) (inner : IdlType) :
  reader_advances (de_coption de inner).
Proof.
  intros buf a rest H. destruct de; simpl in H; [discriminate|].
  unfold spl_coption in H.
  destruct (length buf <? 4)%nat; [discriminate|].
  destruct (bool_decide (take 4 buf = [0; 0; 0; 0])).
  - destruct (idl_type_bytes 0 inner None) as [bl|]; [|discriminate].
    destruct (length (drop 4 buf) <? bl)%nat; [discriminate|].
    injection H as _ <-. exists (4 + bl)%nat. apply drop_drop.
  - destruct (bool_decide (take 4 buf = [1; 0; 0; 0])); [|discriminate].
    injection H as _ <-. exists 4%nat. reflexivity.
Qed.

Ltac advances_step :=
  cbv beta;
  match goal with
  | |- advances (bind _ _) => apply advances_bind; [| intros ?]
  | |- advances (write _) => apply advances_write
  | |- advances (write_quoted _) => unfold write_quoted
  | |- advances (ret _) => apply advances_ret
  | |- advances (throw _) => apply advances_throw
  | |- advances panic => apply advances_panic
  | |- advances (map_err _ _) => apply advances_map_err
  | |- advances (separator _ _ _) => unfold separator
  | |- advances (for_range _ _ _) => apply advances_for_range; intros ?
  | |- advances (for_enumerate _ _ _) => apply advances_for_enumerate; intros ? ?
  | |- advances (deserialize_fields_to_object _ _) => unfold deserialize_fields_to_object
  | |- advances (read _) =>
      apply advances_read;
      first [ eapply reader_consumes_advances;
              first [ apply de_uint_consumes | apply de_int_consumes
                    | apply deserialize_f32_consumes | apply deserialize_f64_consumes
                    | apply borsh_bool_consumes | apply de_pubkey_consumes
                    | apply borsh_u8_io_consumes ]
            | apply borsh_string_advances | apply borsh_bytes_advances
            | apply de_option_advances | apply de_coption_advances ]
  | |- advances (if ?b then _ else _) => destruct b
  | |- advances (match ?x with _ => _ end) => destruct x
  | H : forall x, advances _ |- _ => apply H
  end.

Lemma deserialize_advances (opts : JsonSerializationOpts) (de : DeserializeProvider)
    (tm : TypeDeMap) (fuel : nat) :
  (forall ty, advances (deserialize_type opts de tm fuel ty)) /\
  (forall d, advances (deserialize_def opts de tm fuel d)) /\
  (forall field, advances (deserialize_field opts de tm fuel field)) /\
  (forall v, advances (deserialize_variant opts de tm fuel v)).
Proof.
  induction fuel as [|f (IHty & IHdef & IHfield & IHvariant)].
  { split; [|split; [|split]]; intros ?; apply advances_panic. }
  split; [|split; [|split]].
  - intros ty. destruct ty; simpl deserialize_type; repeat advances_step.
  - intros d. simpl deserialize_def. destruct (def_ty d); repeat advances_step.
  - intros field. simpl deserialize_field. repeat advances_step.
  - intros v. simpl deserialize_variant. repeat advances_step.
Qed.

(** X3: a successful decode of any type leaves the cursor at a suffix of the
    buffer and only appends to the sink. *)
Theorem deserialize_type_advances (opts : JsonSerializationOpts) (de : DeserializeProvider)
    (tm : TypeDeMap) (fuel : nat) (ty : IdlType)
    (buf : list Z) (out : list Piece) (u : unit) (rest : list Z) (out' : list Piece) :
  deserialize_type opts de tm fuel ty buf out = Ok (u, rest, out') ->
  rest `suffix_of` buf /\ out `prefix_of` out'.
Proof.
  intros H. destruct (deserialize_advances opts de tm fuel) as [Hty _].
  destruct (Hty ty buf out u rest out' H) as [[k ->] [s ->]].
  split; [exists (take k buf); symmetry; apply take_drop | exists s; reflexivity].
Qed.

Lemma deserialize_type_advances_witness :
  [9] `suffix_of` point_bytes.
Proof.
  eapply (deserialize_type_advances default_opts Borsh point_types 5 (Array (Defined "Point") 2)
            point_bytes [] tt [9]). reflexivity.
Defined.

Lemma le_bytes_S (n : nat) (v : Z) :
  le_bytes (S n) v = Z.land v 255 :: le_bytes n (Z.shiftr v 8).
Proof.
  unfold le_bytes. simpl. f_equal.
  rewrite <- seq_shift, map_map. apply map_ext. intros i.
  rewrite Z.shiftr_shiftr by lia. f_equal. f_equal. lia.
Qed.

Lemma length_le_bytes (n : nat) (v : Z) : length (le_bytes n v) = n.
Proof. unfold le_bytes. rewrite length_map, length_seq. reflexivity. Qed.

Lemma le_value_le_bytes (n : nat) (v : Z) :
  le_value (le_bytes n v) = v mod 2 ^ (8 * Z.of_nat n).
Proof.
  revert v. induction n as [|n IH]; intros v.
  - simpl. rewrite Z.mod_1_r. reflexivity.
  - rewrite le_bytes_S. simpl le_value. rewrite IH.
    rewrite Z.land_ones with (n := 8) by lia. rewrite Z.shiftr_div_pow2 by lia.
    replace (8 * Z.of_nat (S n)) with (8 + 8 * Z.of_nat n) by lia.
    rewrite Z.pow_add_r by lia.
    rewrite Z.rem_mul_r by lia. change (2 ^ 8) with 256. ring.
Qed.

Lemma borsh_uint_le_bytes (n : nat) (v : Z) (rest : list Z) :
  borsh_uint n (le_bytes n v ++ rest) = Some (v mod 2 ^ (8 * Z.of_nat n), rest).
Proof.
  unfold borsh_uint. rewrite length_app, length_le_bytes.
  destruct (n + length rest <? n)%nat eqn:Hlt; [apply Nat.ltb_lt in Hlt; lia|].
  rewrite take_app_length' by (rewrite length_le_bytes; reflexivity).
  rewrite drop_app_length' by (rewrite length_le_bytes; reflexivity).
  rewrite le_value_le_bytes. reflexivity.
Qed.



(** X5: the signed readers decode the [n]-byte two's-complement
    little-endian encoding of any [v] in range back to [v] and leave the
    rest of the buffer. *)
Theorem de_int_le_roundtrip (kind : string) (n : nat) (de : DeserializeProvider)
    (v : Z) (rest : list Z) :
  (0 < n)%nat ->
  - 2 ^ (8 * Z.of_nat n - 1) <= v < 2 ^ (8 * Z.of_nat n - 1) ->
  de_int kind n de (le_bytes n v ++ rest) = Ok (v, rest).
Proof.
  intros Hn Hv. unfold de_int, borsh_typed, borsh_int.
  rewrite borsh_uint_le_bytes. f_equal. f_equal.
  assert (Hp : 2 ^ (8 * Z.of_nat n) = 2 * 2 ^ (8 * Z.of_nat n - 1))
    by (rewrite <- Z.pow_succ_r by lia; f_equal; lia).
  assert (Hpos : 0 < 2 ^ (8 * Z.of_nat n - 1)) by (apply Z.pow_pos_nonneg; lia).
  unfold to_signed.
  destruct (Z.le_gt_cases 0 v) as [Hge|Hlt].
  - rewrite Z.mod_small by lia.
    rewrite (proj2 (Z.ltb_lt _ _) (proj2 Hv)). reflexivity.
  - rewrite <- (Z.mod_unique v (2 ^ (8 * Z.of_nat n)) (-1) (v + 2 ^ (8 * Z.of_nat n))) by lia.
    destruct (v + 2 ^ (8 * Z.of_nat n) <? 2 ^ (8 * Z.of_nat n - 1)) eqn:Hc.
    + apply Z.ltb_lt in Hc. lia.
    + lia.
Qed.

Lemma de_int_le_roundtrip_witness :
  de_int "i16" 2 Borsh (le_bytes 2 (-300) ++ [7]) = Ok (-300, [7]).
Proof.
  exact (de_int_le_roundtrip "i16" 2 Borsh (-300) [7] ltac:(lia) ltac:(simpl; lia)).
Defined.

Lemma borsh_vec_u8_prefixed (bs rest : list Z) :
  Z.of_nat (length bs) < 2 ^ 32 ->
  borsh_vec_u8 (le_bytes 4 (Z.of_nat (length bs)) ++ bs ++ rest) = inl (Some (bs, rest)).
Proof.
  intros Hlen. unfold borsh_vec_u8. rewrite borsh_uint_le_bytes.
  change (2 ^ (8 * Z.of_nat 4)) with (2 ^ 32).
  rewrite Z.mod_small by lia. rewrite Nat2Z.id, length_app.
  destruct (length bs + length rest <? length bs)%nat eqn:Hlt; [apply Nat.ltb_lt in Hlt; lia|].
  rewrite take_app_length, drop_app_length. reflexivity.
Qed.



(** X7: the borsh [string] reader returns a length-prefixed byte string when
    it is valid UTF-8, and otherwise fails with [BorshDeserializeTypeError
    "String"] on what follows it. *)
Theorem borsh_string_roundtrip (bs rest : list Z) :
  Z.of_nat (length bs) < 2 ^ 32 ->
  borsh_string (le_bytes 4 (Z.of_nat (length bs)) ++ bs ++ rest) =
  if utf8_valid bs then Ok (bs, rest) else Err (BorshDeserializeTypeError "String" rest).
Proof.
  intros Hlen. unfold borsh_string. rewrite borsh_vec_u8_prefixed by exact Hlen. reflexivity.
Qed.

Lemma borsh_string_roundtrip_witness :
  borsh_string (le_bytes 4 2 ++ [0xC3; 0xA9] ++ [7]) = Ok ([0xC3; 0xA9], [7]) /\
  borsh_string (le_bytes 4 1 ++ [0xC3] ++ [7]) = Err (BorshDeserializeTypeError "String" [7]).
Proof.
  split.
  - exact (borsh_string_roundtrip [0xC3; 0xA9] [7] ltac:(vm_compute; reflexivity)).
  - exact (borsh_string_roundtrip [0xC3] [7] ltac:(vm_compute; reflexivity)).
Defined.

(** X8: under borsh an [Option] is a one-byte tag, [0] giving [null] and any
    other value the inner value (its errors wrapped as the [Option]
    composite's); under spl an [Option], and under borsh a [COption], is
    refused as unsupported. *)
Theorem option_tags_by_provider (opts : JsonSerializationOpts) (tm : TypeDeMap) (f : nat)
    (inner : IdlType) (t : Z) (rest buf : list Z) (out : list Piece) :
  deserialize_type opts Borsh tm (S f) (Option inner) (t :: rest) out =
    (if t =? 0 then Ok (tt, rest, out ++ [PStr "null"])
     else map_err (CompositeDeserializeError "Option" []) (deserialize_type opts Borsh tm f inner)
            rest out) /\
  deserialize_type opts Spl tm (S f) (Option inner) buf out =
    Err (DeserializerDoesNotSupportType "spl" "option") /\
  deserialize_type opts Borsh tm (S f) (COption inner) buf out =
    Err (DeserializerDoesNotSupportType "borsh" "coption").
Proof.
  split; [|split; reflexivity].
  simpl deserialize_type. unfold bind, read, de_option, borsh_option, borsh_typed, borsh_uint.
  simpl. rewrite Z.add_0_r. destruct (t =? 0); reflexivity.
Qed.


(** ** Integer, byte-string and tag encodings *)


(** ** Account names under the prefix discriminator *)

Lemma round_length (st : list Z) (kw : Z * Z) : length (Sha256.round st kw) = length st.
Proof.
  unfold Sha256.round.
  destruct st as [|a [|b [|c [|d [|e [|f [|g [|h [|i st]]]]]]]]]; reflexivity.
Qed.

Lemma fold_round_length (kws : list (Z * Z)) (st : list Z) :
  length (fold_left Sha256.round kws st) = length st.
Proof.
  revert st. induction kws as [|kw rest IH]; intros st; simpl; [reflexivity|].
  rewrite IH. apply round_length.
Qed.

Lemma compress_length (h block : list Z) : length (Sha256.compress h block) = length h.
Proof.
  unfold Sha256.compress. rewrite length_zip_with, fold_round_length. lia.
Qed.

Lemma fold_compress_length (bs : list (list Z)) (h : list Z) :
  length (fold_left Sha256.compress bs h) = length h.
Proof.
  revert h. induction bs as [|b rest IH]; intros h; simpl; [reflexivity|].
  rewrite IH. apply compress_length.
Qed.

Lemma hash_length (msg : list Z) : length (Sha256.hash msg) = 32%nat.
Proof.
  unfold Sha256.hash.
  assert (Hc : forall h, length (concat (map (fun w => Sha256.be_bytes w 4) h)) = (4 * length h)%nat).
  { induction h as [|w h IH]; [reflexivity|].
    cbn [map concat]. rewrite length_app, IH. unfold Sha256.be_bytes.
    rewrite length_map, length_seq. cbn [length]. lia. }
  rewrite Hc, fold_compress_length. reflexivity.
Qed.

Lemma account_discriminator_length (name : string) : length (account_discriminator name) = 8%nat.
Proof. unfold account_discriminator. rewrite length_take, hash_length. reflexivity. Qed.

(** X10: under the prefix discriminator, decoding [tag(name) ++ data] is
    decoding [data] by the name [name] when that tag is registered; when it
    is not, the by-name decode fails with [UnknownAccount name]. *)
Theorem prefix_by_name_agrees (fuel : nat) (opts : JsonSerializationOpts)
    (de : DeserializeProvider) (type_map : TypeDeMap) (accounts : list IdlTypeDefinition)
    (name : string) (data : list Z) (out : list Piece) :
  prefix_deserialize_account_data fuel opts de type_map accounts
    (account_discriminator name ++ data) out =
  match prefix_deserializers accounts !! account_discriminator name with
  | Some _ => prefix_deserialize_account_data_by_name fuel opts de type_map accounts data name out
  | None => Err (UnknownDiscriminatedAccount (account_discriminator name))
  end /\
  (prefix_deserializers accounts !! account_discriminator name = None ->
   prefix_deserialize_account_data_by_name fuel opts de type_map accounts data name out =
   Err (UnknownAccount name)).
Proof.
  unfold prefix_deserialize_account_data, prefix_deserialize_account_data_by_name.
  rewrite length_app, account_discriminator_length.
  destruct (8 + length data <? 8)%nat eqn:Hlt; [apply Nat.ltb_lt in Hlt; lia|].
  rewrite take_app_length' by (rewrite account_discriminator_length; reflexivity).
  rewrite drop_app_length' by (rewrite account_discriminator_length; reflexivity).
  split; [destruct (prefix_deserializers accounts !! _); reflexivity|].
  intros Hn. rewrite Hn. reflexivity.
Qed.

Lemma prefix_by_name_fold_lookup (accounts : list IdlTypeDefinition)
    (m : gmap string DiscriminatorBytes) (n : string) (t : DiscriminatorBytes) :
  foldl (fun by_name a => <[def_name a := account_discriminator (def_name a)]> by_name) m accounts
    !! n = Some t ->
  m !! n = Some t \/ (t = account_discriminator n /\ exists a, In a accounts /\ def_name a = n).
Proof.
  revert m. induction accounts as [|a rest IH]; intros m Hl; simpl in *; [left; exact Hl|].
  destruct (IH _ Hl) as [Hm | [Ht (b & Hb & Hbn)]].
  - apply lookup_insert_Some in Hm as [[<- <-] | [_ Hm]].
    + right. split; [reflexivity | exists a; split; [left|]; reflexivity].
    + left. exact Hm.
  - right. split; [exact Ht | exists b; split; [right; exact Hb | exact Hbn]].
Qed.

Lemma prefix_by_name_fold_has (accounts : list IdlTypeDefinition)
    (m : gmap string DiscriminatorBytes) (n : string) :
  (m !! n = Some (account_discriminator n) \/ exists a, In a accounts /\ def_name a = n) ->
  foldl (fun by_name a => <[def_name a := account_discriminator (def_name a)]> by_name) m accounts
    !! n = Some (account_discriminator n).
Proof.
  revert m. induction accounts as [|a rest IH]; intros m Hin; simpl.
  - destruct Hin as [Hm | (a & [] & _)]. exact Hm.
  - apply IH. destruct (decide (def_name a = n)) as [<-|Hne].
    + left. apply lookup_insert_eq.
    + rewrite lookup_insert_ne by exact Hne.
      destruct Hin as [Hm | (b & [<-|Hb] & Hbn)]; [left; exact Hm | contradiction |].
      right. exists b. split; assumption.
Qed.

Lemma prefix_account_names_fold_lookup (entries : list (string * DiscriminatorBytes))
    (m : gmap DiscriminatorBytes string) (k : DiscriminatorBytes) (n : string) :
  foldl (fun account_names '(name, discriminator) => <[discriminator := name]> account_names)
    m entries !! k = Some n ->
  m !! k = Some n \/ In (n, k) entries.
Proof.
  revert m. induction entries as [|[n' k'] rest IH]; intros m Hl; simpl in *; [left; exact Hl|].
  destruct (IH _ Hl) as [Hm | Hr]; [|right; right; exact Hr].
  apply lookup_insert_Some in Hm as [[-> ->] | [_ Hm]]; [right; left; reflexivity | left; exact Hm].
Qed.

Lemma prefix_account_names_fold_some (entries : list (string * DiscriminatorBytes))
    (m : gmap DiscriminatorBytes string) (k : DiscriminatorBytes) :
  (is_Some (m !! k) \/ exists n, In (n, k) entries) ->
  is_Some (foldl (fun account_names '(name, discriminator) => <[discriminator := name]> account_names)
    m entries !! k).
Proof.
  revert m. induction entries as [|[n' k'] rest IH]; intros m Hin; simpl.
  - destruct Hin as [Hm | (n & [])]. exact Hm.
  - apply IH. destruct (decide (k' = k)) as [<-|Hne].
    + left. rewrite lookup_insert_eq. eauto.
    + rewrite lookup_insert_ne by exact Hne.
      destruct Hin as [Hm | (n & [Heq|Hr])]; [left; exact Hm | congruence |].
      right. exists n. exact Hr.
Qed.

(** X11: the prefix discriminator's [account_name] gives [None] for a blob
    shorter than 8 bytes; a name it gives is a declared account whose tag is
    the blob's first 8 bytes; and a blob that starts with a declared
    account's tag always gets a name. *)
Theorem prefix_account_name_spec (accounts : list IdlTypeDefinition)
    (entries : list (string * DiscriminatorBytes)) (data : list Z)
    (Hentries : entries ≡ₚ map_to_list (prefix_by_name accounts)) :
  ((length data < 8)%nat -> prefix_account_name entries data = None) /\
  (forall n, prefix_account_name entries data = Some n ->
     (exists a, In a accounts /\ def_name a = n) /\ account_discriminator n = take 8 data) /\
  (forall a, In a accounts -> (8 <= length data)%nat ->
     account_discriminator (def_name a) = take 8 data ->
     exists n, prefix_account_name entries data = Some n).
Proof.
  unfold prefix_account_name, prefix_account_names, discriminator_from_data.
  rewrite take_take, Nat.min_id.
  assert (Hmem : forall n k, In (n, k) entries <->
            (k = account_discriminator n /\ exists a, In a accounts /\ def_name a = n)).
  { intros n k. rewrite <- list_elem_of_In, Hentries, elem_of_map_to_list. split.
    - intros Hl. unfold prefix_by_name in Hl.
      destruct (prefix_by_name_fold_lookup _ _ _ _ Hl) as [H0 | H]; [|exact H].
      rewrite lookup_empty in H0. discriminate.
    - intros [-> Hex]. apply prefix_by_name_fold_has. right. exact Hex. }
  split; [|split].
  - intros Hlt. apply Nat.ltb_lt in Hlt. rewrite Hlt. reflexivity.
  - intros n. destruct (length data <? 8)%nat; [discriminate|]. intros Hl.
    destruct (prefix_account_names_fold_lookup _ _ _ _ Hl) as [H0 | Hin].
    + rewrite lookup_empty in H0. discriminate.
    + apply Hmem in Hin as [Hk Hex]. split; [exact Hex | symmetry; exact Hk].
  - intros a Ha Hle Htag.
    destruct (length data <? 8)%nat eqn:Hlt; [apply Nat.ltb_lt in Hlt; lia|].
    apply prefix_account_names_fold_some. right. exists (def_name a).
    apply Hmem. split; [symmetry; exact Htag | exists a; split; [exact Ha | reflexivity]].
Qed.

Lemma prefix_account_name_spec_witness :
  map_to_list (prefix_by_name [account_a; account_b]) ≡ₚ map_to_list (prefix_by_name [account_a; account_b]) /\
  exists n, prefix_account_name (map_to_list (prefix_by_name [account_a; account_b]))
              (account_discriminator "A" ++ [0; 1]) = Some n.
Proof.
  split; [reflexivity|].
  apply (proj2 (proj2 (prefix_account_name_spec [account_a; account_b] _
           (account_discriminator "A" ++ [0; 1]) (reflexivity _))) account_a).
  - left. reflexivity.
  - rewrite length_app, account_discriminator_length. simpl. lia.
  - vm_compute. reflexivity.
Defined.

(** ** The instruction mapper *)

Lemma find_best_matching_loop_some (l : list IdlInstructionAccounts) (data : list Z)
    (bm : option IdlInstructionAccounts) (bs : nat) (ix : IdlInstructionAccounts) :
  find_best_matching_loop l data bm bs = Some ix ->
  (bm = Some ix /\ forall y, In y l -> eligible data y -> (ix_score data y <= bs)%nat) \/
  (exists pre post, l = pre ++ ix :: post /\ eligible data ix /\ (bs < ix_score data ix)%nat /\
     (forall y, In y pre -> eligible data y -> (ix_score data y < ix_score data ix)%nat) /\
     (forall y, In y post -> eligible data y -> (ix_score data y <= ix_score data ix)%nat)).
Proof.
  unfold eligible, ix_score.
  revert bm bs. induction l as [|y rest IH]; intros bm bs Hl; simpl in Hl.
  - left. split; [exact Hl | intros ? []].
  - destruct (length data <? length (discriminator_from_ix (ixa_instruction y)))%nat eqn:Hel.
    + apply Nat.ltb_lt in Hel.
      destruct (IH _ _ Hl) as [[Hb Hall] | (pre & post & -> & He & Hs & Hpre & Hpost)].
      * left. split; [exact Hb|]. intros z [<-|Hz] Hez; [lia | apply Hall; assumption].
      * right. exists (y :: pre), post. split; [reflexivity|].
        repeat split; try assumption. intros z [<-|Hz] Hez; [lia | apply Hpre; assumption].
    + apply Nat.ltb_ge in Hel.
      destruct (bs <? prefix_score (discriminator_from_ix (ixa_instruction y)) data)%nat eqn:Hlt.
      * apply Nat.ltb_lt in Hlt.
        destruct (IH _ _ Hl) as [[Hb Hall] | (pre & post & -> & He & Hs & Hpre & Hpost)].
        -- injection Hb as ->. right. exists [], rest.
           repeat split; try assumption. intros ? [].
        -- right. exists (y :: pre), post. split; [reflexivity|].
           repeat split; try assumption; [lia|].
           intros z [<-|Hz] Hez; [lia | apply Hpre; assumption].
      * apply Nat.ltb_ge in Hlt.
        destruct (IH _ _ Hl) as [[Hb Hall] | (pre & post & -> & He & Hs & Hpre & Hpost)].
        -- left. split; [exact Hb|]. intros z [<-|Hz] Hez; [lia | apply Hall; assumption].
        -- right. exists (y :: pre), post. split; [reflexivity|].
           repeat split; try assumption. intros z [<-|Hz] Hez; [lia | apply Hpre; assumption].
Qed.

Lemma find_best_matching_loop_none (l : list IdlInstructionAccounts) (data : list Z)
    (bm : option IdlInstructionAccounts) (bs : nat) :
  find_best_matching_loop l data bm bs = None ->
  bm = None /\ forall y, In y l -> eligible data y -> (ix_score data y <= bs)%nat.
Proof.
  unfold eligible, ix_score.
  revert bm bs. induction l as [|y rest IH]; intros bm bs Hl; simpl in Hl.
  - split; [exact Hl | intros ? []].
  - destruct (length data <? length (discriminator_from_ix (ixa_instruction y)))%nat eqn:Hel.
    + apply Nat.ltb_lt in Hel. destruct (IH _ _ Hl) as [Hb Hall].
      split; [exact Hb|]. intros z [<-|Hz] Hez; [lia | apply Hall; assumption].
    + apply Nat.ltb_ge in Hel.
      destruct (bs <? prefix_score (discriminator_from_ix (ixa_instruction y)) data)%nat eqn:Hlt.
      * destruct (IH _ _ Hl) as [Hb _]. discriminate.
      * apply Nat.ltb_ge in Hlt. destruct (IH _ _ Hl) as [Hb Hall].
        split; [exact Hb|]. intros z [<-|Hz] Hez; [lia | apply Hall; assumption].
Qed.

Lemma prefix_score_prefix (disc data : list Z) :
  disc `prefix_of` data -> prefix_score disc data = length disc.
Proof.
  intros [k ->]. induction disc as [|a disc IH]; [reflexivity|].
  simpl. rewrite Z.eqb_refl, IH. reflexivity.
Qed.

Lemma prefix_score_le (disc data : list Z) : (prefix_score disc data <= length disc)%nat.
Proof.
  revert data. induction disc as [|a disc IH]; intros [|b data]; simpl; try lia.
  destruct (a =? b); simpl; [specialize (IH data); lia | lia].
Qed.

(** X12: [find_best_matching_idl_ix] picks, among the instructions whose tag
    fits in the data, the first one with the longest common prefix with the
    data, and only if that prefix is non-empty; an instruction whose
    non-empty tag prefixes the data guarantees a pick that matches at least
    as many bytes. *)
Theorem find_best_matching_idl_ix_spec (ix_idls : list IdlInstructionAccounts) (data : list Z) :
  (forall ix, find_best_matching_idl_ix ix_idls data = Some ix ->
     exists pre post, ix_idls = pre ++ ix :: post /\ eligible data ix /\
       (0 < ix_score data ix)%nat /\
       (forall y, In y pre -> eligible data y -> (ix_score data y < ix_score data ix)%nat) /\
       (forall y, In y post -> eligible data y -> (ix_score data y <= ix_score data ix)%nat)) /\
  (find_best_matching_idl_ix ix_idls data = None ->
     forall y, In y ix_idls -> eligible data y -> ix_score data y = 0%nat) /\
  (forall y, In y ix_idls -> discriminator_from_ix (ixa_instruction y) <> [] ->
     discriminator_from_ix (ixa_instruction y) `prefix_of` data ->
     exists ix, find_best_matching_idl_ix ix_idls data = Some ix /\
       (length (discriminator_from_ix (ixa_instruction y)) <= ix_score data ix)%nat).
Proof.
  unfold find_best_matching_idl_ix.
  assert (Hsome : forall ix, find_best_matching_loop ix_idls data None 0 = Some ix ->
     exists pre post, ix_idls = pre ++ ix :: post /\ eligible data ix /\
       (0 < ix_score data ix)%nat /\
       (forall y, In y pre -> eligible data y -> (ix_score data y < ix_score data ix)%nat) /\
       (forall y, In y post -> eligible data y -> (ix_score data y <= ix_score data ix)%nat)).
  { intros ix Hl. destruct (find_best_matching_loop_some _ _ _ _ _ Hl) as [[Hb _] | Hr];
      [discriminate | exact Hr]. }
  assert (Hnone : find_best_matching_loop ix_idls data None 0 = None ->
     forall y, In y ix_idls -> eligible data y -> ix_score data y = 0%nat).
  { intros Hl y Hy Hey. destruct (find_best_matching_loop_none _ _ _ _ Hl) as [_ Hall].
    specialize (Hall y Hy Hey). lia. }
  split; [exact Hsome | split; [exact Hnone|]].
  intros y Hy Hne Hpre.
  assert (Hey : eligible data y) by (unfold eligible; apply prefix_length; exact Hpre).
  assert (Hsy : ix_score data y = length (discriminator_from_ix (ixa_instruction y)))
    by (apply prefix_score_prefix; exact Hpre).
  destruct (find_best_matching_loop ix_idls data None 0) as [ix|] eqn:Hl.
  - exists ix. split; [reflexivity|].
    destruct (Hsome ix eq_refl) as (pre & post & Hsplit & _ & _ & Hp & Hq).
    rewrite Hsplit in Hy. apply in_app_or in Hy as [Hy | [<- | Hy]].
    + specialize (Hp y Hy Hey). lia.
    + lia.
    + specialize (Hq y Hy Hey). lia.
  - specialize (Hnone eq_refl y Hy Hey). destruct (discriminator_from_ix (ixa_instruction y));
      [contradiction | simpl in Hsy; lia].
Qed.

Section InstructionMapperProofs.
Context {PK : Type} `{Countable PK}.
Variable BUILTIN_PROGRAMS : gmap PK string.

Lemma map_accounts_loop_cons (program_id : PK) (program_name : option string)
    (mapper : option IdlInstructionAccounts) (idx : nat) (pubkey : PK) (rest : list PK)
    (accounts : gmap PK string) (instruction_name : option string) :
  map_accounts_loop BUILTIN_PROGRAMS program_id program_name mapper idx (pubkey :: rest)
    accounts instruction_name =
  map_accounts_loop BUILTIN_PROGRAMS program_id program_name mapper (S idx) rest
    (match account_label BUILTIN_PROGRAMS program_id program_name mapper idx pubkey with
     | Some n => <[pubkey := n]> accounts
     | None => accounts
     end)
    (if names_instruction BUILTIN_PROGRAMS program_id program_name pubkey
     then match mapper with
          | Some m => Some (ix_name (ixa_instruction m))
          | None => instruction_name
          end
     else instruction_name).
Proof.
  unfold account_label, names_instruction. simpl.
  destruct (BUILTIN_PROGRAMS !! pubkey); [reflexivity|].
  destruct program_name as [pn|]; [destruct (decide (pubkey = program_id)) as [->|Hne]|];
    simpl; rewrite ?bool_decide_true, ?bool_decide_false by auto; simpl;
    destruct mapper as [m|]; simpl; try reflexivity;
    destruct (ixa_accounts m !! idx); reflexivity.
Qed.

Lemma map_accounts_loop_name (program_id : PK) (program_name : option string)
    (mapper : option IdlInstructionAccounts) (idx : nat) (ks : list PK)
    (accounts : gmap PK string) (instruction_name : option string) :
  (map_accounts_loop BUILTIN_PROGRAMS program_id program_name mapper idx ks
     accounts instruction_name).2 =
  if existsb (names_instruction BUILTIN_PROGRAMS program_id program_name) ks
  then match mapper with
       | Some m => Some (ix_name (ixa_instruction m))
       | None => instruction_name
       end
  else instruction_name.
Proof.
  revert idx accounts instruction_name.
  induction ks as [|k rest IH]; intros idx accounts instruction_name; [reflexivity|].
  rewrite map_accounts_loop_cons, IH. simpl.
  destruct (names_instruction BUILTIN_PROGRAMS program_id program_name k), (existsb _ rest), mapper;
    reflexivity.
Qed.

Lemma map_accounts_loop_lookup (program_id : PK) (program_name : option string)
    (mapper : option IdlInstructionAccounts) (idx : nat) (ks : list PK)
    (accounts : gmap PK string) (instruction_name : option string) (k : PK) (n : string) :
  (map_accounts_loop BUILTIN_PROGRAMS program_id program_name mapper idx ks
     accounts instruction_name).1 !! k = Some n ->
  accounts !! k = Some n \/
  exists j, ks !! j = Some k /\ account_label BUILTIN_PROGRAMS program_id program_name mapper (idx + j) k = Some n.
Proof.
  revert idx accounts instruction_name.
  induction ks as [|k' rest IH]; intros idx accounts instruction_name Hl; [left; exact Hl|].
  rewrite map_accounts_loop_cons in Hl.
  destruct (IH _ _ _ Hl) as [Hm | (j & Hj & Hlab)].
  - destruct (account_label BUILTIN_PROGRAMS program_id program_name mapper idx k') as [n'|] eqn:Hk'; [|left; exact Hm].
    apply lookup_insert_Some in Hm as [[-> ->] | [_ Hm]]; [|left; exact Hm].
    right. exists 0%nat. rewrite Nat.add_0_r. split; [reflexivity | exact Hk'].
  - right. exists (S j). rewrite Nat.add_succ_r. split; [exact Hj | exact Hlab].
Qed.

Lemma map_accounts_loop_fixed (program_id : PK) (program_name : option string)
    (mapper : option IdlInstructionAccounts) (idx : nat) (ks : list PK)
    (accounts : gmap PK string) (instruction_name : option string) (k : PK) (n : string) :
  (forall j, account_label BUILTIN_PROGRAMS program_id program_name mapper j k = Some n) ->
  (accounts !! k = Some n \/ In k ks) ->
  (map_accounts_loop BUILTIN_PROGRAMS program_id program_name mapper idx ks
     accounts instruction_name).1 !! k = Some n.
Proof.
  intros Hlab. revert idx accounts instruction_name.
  induction ks as [|k' rest IH]; intros idx accounts instruction_name Hin.
  - destruct Hin as [Hm | []]. exact Hm.
  - rewrite map_accounts_loop_cons. apply IH.
    destruct (decide (k' = k)) as [->|Hne].
    + left. rewrite Hlab. apply lookup_insert_eq.
    + destruct Hin as [Hm | [Heq | Hr]]; [|congruence|right; exact Hr].
      left. destruct (account_label BUILTIN_PROGRAMS _ _ _ _ _); [|exact Hm].
      rewrite lookup_insert_ne by exact Hne. exact Hm.
Qed.

(** X13: [map_accounts] names the instruction only when an IDL is given and
    some account is neither a builtin program nor the program id; the name
    is then that of the best matching IDL instruction, if any. *)
Theorem map_accounts_instruction_name (instruction : ParsedInstruction) (idl : option IdlProgram) :
  mapped_instruction_name (map_accounts BUILTIN_PROGRAMS instruction idl) =
  match idl with
  | None => None
  | Some p =>
      if existsb (fun pubkey => bool_decide (BUILTIN_PROGRAMS !! pubkey = None) &&
                                negb (bool_decide (pubkey = pi_program_id instruction)))
                 (pi_accounts instruction)
      then (fun m => ix_name (ixa_instruction m)) <$>
             find_best_matching_idl_ix (idl_instructions p) (pi_data instruction)
      else None
  end.
Proof.
  unfold map_accounts.
  match goal with |- context [map_accounts_loop ?b ?pid ?pn ?mp ?i ?ks ?a ?nm] =>
    pose proof (map_accounts_loop_name pid pn mp i ks a nm) as Hn;
    destruct (map_accounts_loop b pid pn mp i ks a nm) as [accounts nm'] end.
  simpl in *. subst nm'.
  destruct idl as [p|]; simpl; [|destruct (existsb _ _); reflexivity].
  destruct (find_best_matching_idl_ix _ _); unfold names_instruction; simpl;
    destruct (existsb _ _); reflexivity.
Qed.

(** X14: [map_accounts] labels only keys of the instruction; a builtin
    program key always gets its builtin name; with an IDL the program id, if
    not builtin, gets the IDL's name; any other label is the IDL
    instruction's account name at a position where the key occurs. *)
Theorem map_accounts_labels (instruction : ParsedInstruction) (idl : option IdlProgram) :
  let accounts := mapped_accounts (map_accounts BUILTIN_PROGRAMS instruction idl) in
  (forall pubkey name, accounts !! pubkey = Some name -> In pubkey (pi_accounts instruction)) /\
  (forall pubkey name, In pubkey (pi_accounts instruction) ->
     BUILTIN_PROGRAMS !! pubkey = Some name -> accounts !! pubkey = Some name) /\
  (forall p, idl = Some p -> In (pi_program_id instruction) (pi_accounts instruction) ->
     BUILTIN_PROGRAMS !! pi_program_id instruction = None ->
     accounts !! pi_program_id instruction = Some (idl_prog_name p)) /\
  (forall pubkey name, accounts !! pubkey = Some name ->
     BUILTIN_PROGRAMS !! pubkey = None ->
     (idl = None \/ pubkey <> pi_program_id instruction) ->
     exists p m idx, idl = Some p /\
       find_best_matching_idl_ix (idl_instructions p) (pi_data instruction) = Some m /\
       pi_accounts instruction !! idx = Some pubkey /\ ixa_accounts m !! idx = Some name).
Proof.
  unfold map_accounts.
  match goal with |- context [map_accounts_loop ?b ?pid ?pn ?mp ?i ?ks ?a ?nm] =>
    pose proof (map_accounts_loop_lookup pid pn mp i ks a nm) as Hlk;
    pose proof (map_accounts_loop_fixed pid pn mp i ks a nm) as Hfx;
    destruct (map_accounts_loop b pid pn mp i ks a nm) as [accounts nm'] end.
  simpl in *.
  split; [|split; [|split]].
  - intros pubkey name Hl. destruct (Hlk _ _ Hl) as [H0 | (j & Hj & _)].
    + rewrite lookup_empty in H0. discriminate.
    + apply list_elem_of_In, (list_elem_of_lookup_2 _ j). exact Hj.
  - intros pubkey name Hin Hb. apply Hfx; [|right; exact Hin].
    intros j. unfold account_label. rewrite Hb. reflexivity.
  - intros p -> Hin Hb. apply Hfx; [|right; exact Hin].
    intros j. unfold account_label. rewrite Hb. simpl.
    rewrite decide_True by reflexivity. reflexivity.
  - intros pubkey name Hl Hb Hcase. destruct (Hlk _ _ Hl) as [H0 | (j & Hj & Hlab)].
    + rewrite lookup_empty in H0. discriminate.
    + unfold account_label in Hlab. rewrite Hb in Hlab. simpl in Hlab.
      destruct idl as [p|]; simpl in Hlab; [|discriminate].
      destruct Hcase as [Hc | Hne]; [discriminate|].
      rewrite decide_False in Hlab by exact Hne.
      destruct (find_best_matching_idl_ix _ _) as [m|] eqn:Hf; simpl in Hlab; [|discriminate].
      exists p, m, j. repeat split; first [reflexivity | assumption].
Qed.

End InstructionMapperProofs.

Lemma find_best_matching_idl_ix_spec_witness :
  exists ix, find_best_matching_idl_ix [increment_ix; decrement_ix] [1; 8; 5] = Some ix /\
    Nat.le 2 (ix_score [1; 8; 5] ix).
Proof.
  apply (proj2 (proj2 (find_best_matching_idl_ix_spec [increment_ix; decrement_ix] [1; 8; 5]))
           decrement_ix).
  - right. left. reflexivity.
  - simpl. discriminate.
  - exists [5]. reflexivity.
Defined.

Lemma map_accounts_labels_witness :
  mapped_accounts (map_accounts BUILTIN_PROGRAMS increment_call (Some counter_idl))
    !! "11111111111111111111111111111111" = Some "System Program" /\
  mapped_accounts (map_accounts BUILTIN_PROGRAMS increment_call (Some counter_idl))
    !! "Counter111" = Some "counter".
Proof.
  split.
  - apply (proj1 (proj2 (map_accounts_labels BUILTIN_PROGRAMS increment_call (Some counter_idl)))).
    + right. left. reflexivity.
    + vm_compute. reflexivity.
  - apply (proj1 (proj2 (proj2 (map_accounts_labels BUILTIN_PROGRAMS increment_call
             (Some counter_idl)))) counter_idl eq_refl).
    + right. right. left. reflexivity.
    + vm_compute. reflexivity.
Defined.

(** ** The structural discriminator and account names *)









Lemma match_deserializers_fold_lookup (ds : list MatchDiscriminator)
    (m : gmap string IdlTypeDefinition) (n : string) (d : IdlTypeDefinition) :
  foldl (fun deserializer_by_name disc =>
           <[def_name (account disc) := account disc]> deserializer_by_name) m ds !! n = Some d ->
  m !! n = Some d \/ exists disc, In disc ds /\ account disc = d /\ def_name d = n.
Proof.
  revert m. induction ds as [|disc rest IH]; intros m Hl; simpl in *; [left; exact Hl|].
  destruct (IH _ Hl) as [Hm | (disc' & Hin & Hd & Hn)].
  - apply lookup_insert_Some in Hm as [[<- <-] | [_ Hm]]; [|left; exact Hm].
    right. exists disc. split; [left; reflexivity | split; reflexivity].
  - right. exists disc'. split; [right; exact Hin | split; assumption].
Qed.

Lemma match_deserializers_fold_some (ds : list MatchDiscriminator)
    (m : gmap string IdlTypeDefinition) (n : string) :
  (is_Some (m !! n) \/ exists disc, In disc ds /\ def_name (account disc) = n) ->
  is_Some (foldl (fun deserializer_by_name disc =>
           <[def_name (account disc) := account disc]> deserializer_by_name) m ds !! n).
Proof.
  revert m. induction ds as [|disc rest IH]; intros m Hin; simpl.
  - destruct Hin as [Hm | (d & [] & _)]. exact Hm.
  - apply IH. destruct (decide (def_name (account disc) = n)) as [<-|Hne].
    + left. rewrite lookup_insert_eq. eauto.
    + rewrite lookup_insert_ne by exact Hne.
      destruct Hin as [Hm | (d & [<-|Hd] & Hdn)]; [left; exact Hm | contradiction |].
      right. exists d. split; assumption.
Qed.

Lemma collect_candidates_members (ds : list MatchDiscriminator) (buf : list Z) :
  match collect_candidates ds buf with
  | Some (inl d) => In d ds
  | Some (inr cs) => forall c, In c cs -> In c ds
  | None => True
  end.
Proof.
  induction ds as [|disc rest IH]; simpl; [intros ? []|].
  destruct (matches_account disc buf) as [[|]|]; [|destruct (collect_candidates rest buf) as [[d|cs]|]; auto|exact I].
  destruct (min_total_size disc =? length buf)%nat; [left; reflexivity|].
  destruct (collect_candidates rest buf) as [[d|cs]|]; [right; exact IH| |exact I].
  intros c [<-|Hc]; [left; reflexivity | right; exact (IH c Hc)].
Qed.

Lemma best_candidate_member (cs : list MatchDiscriminator) (best : option MatchDiscriminator)
    (d : MatchDiscriminator) :
  best_candidate cs best = Some d -> best = Some d \/ In d cs.
Proof.
  revert best. induction cs as [|c rest IH]; intros best Hb; simpl in Hb; [left; exact Hb|].
  destruct best as [b|].
  - destruct (length (matchers b) <? length (matchers c))%nat.
    + destruct (IH _ Hb) as [Hc | Hr]; [injection Hc as ->; right; left; reflexivity | right; right; exact Hr].
    + destruct (IH _ Hb) as [Hc | Hr]; [left; exact Hc | right; right; exact Hr].
  - destruct (IH _ Hb) as [Hc | Hr]; [injection Hc as ->; right; left; reflexivity | right; right; exact Hr].
Qed.

Lemma find_matching_disc_member (ds : list MatchDiscriminator) (buf : list Z) (d : MatchDiscriminator) :
  find_matching_disc ds buf = Some (Some d) -> In d ds.
Proof.
  unfold find_matching_disc. pose proof (collect_candidates_members ds buf) as Hm.
  destruct (collect_candidates ds buf) as [[d'|cs]|]; intros Hf; try discriminate.
  - injection Hf as ->. exact Hm.
  - injection Hf as Hb. destruct (best_candidate_member cs None d Hb) as [Hn | Hin];
      [discriminate | exact (Hm d Hin)].
Qed.

Lemma NoDup_map_same {A B} (f : A -> B) (l : list A) (x y : A) :
  NoDup (map f l) -> In x l -> In y l -> f x = f y -> x = y.
Proof.
  induction l as [|a l IH]; intros Hnd Hx Hy Hf; [destruct Hx|].
  simpl in Hnd. apply NoDup_cons in Hnd as [Hna Hnd].
  destruct Hx as [<-|Hx], Hy as [<-|Hy]; try reflexivity.
  - exfalso. apply Hna. rewrite Hf. apply list_elem_of_In, in_map. exact Hy.
  - exfalso. apply Hna. rewrite <- Hf. apply list_elem_of_In, in_map. exact Hx.
  - exact (IH Hnd Hx Hy Hf).
Qed.

(** X17: under the structural discriminator, the name a non-empty blob is
    classified as always has a deserializer: the blob is decoded by an
    account of that name, and by the selected account itself when the
    account names are distinct. *)
Theorem match_deserialize_resolves (fuel : nat) (opts : JsonSerializationOpts)
    (de : DeserializeProvider) (type_map : TypeDeMap) (ds : list MatchDiscriminator)
    (account_data : list Z) (out : list Piece) (disc : MatchDiscriminator) :
  account_data <> [] ->
  find_matching_disc ds account_data = Some (Some disc) ->
  (exists disc', In disc' ds /\ def_name (account disc') = def_name (account disc) /\
     match_deserialize_account_data
       (fun name data => match_deserialize_account_data_by_name fuel opts de type_map ds data name out)
       ds account_data =
     run_account_deserializer fuel opts de type_map (account disc') account_data out) /\
  (NoDup (map (fun d => def_name (account d)) ds) ->
     match_deserialize_account_data
       (fun name data => match_deserialize_account_data_by_name fuel opts de type_map ds data name out)
       ds account_data =
     run_account_deserializer fuel opts de type_map (account disc) account_data out).
Proof.
  intros Hne Hf.
  assert (Hin : In disc ds) by exact (find_matching_disc_member ds account_data disc Hf).
  assert (Heq : match_deserialize_account_data
       (fun name data => match_deserialize_account_data_by_name fuel opts de type_map ds data name out)
       ds account_data =
       match_deserialize_account_data_by_name fuel opts de type_map ds account_data
         (def_name (account disc)) out).
  { unfold match_deserialize_account_data, find_match_name. rewrite Hf. simpl.
    destruct account_data; [contradiction | reflexivity]. }
  rewrite Heq. unfold match_deserialize_account_data_by_name, match_deserializers.
  destruct (match_deserializers_fold_some ds ∅ (def_name (account disc))) as [d Hd];
    [right; exists disc; split; [exact Hin | reflexivity]|].
  rewrite Hd.
  destruct (match_deserializers_fold_lookup _ _ _ _ Hd) as [H0 | (disc' & Hin' & <- & Hn)];
    [rewrite lookup_empty in H0; discriminate|].
  split.
  - exists disc'. split; [exact Hin' | split; [exact Hn | reflexivity]].
  - intros Hnd. rewrite (NoDup_map_same _ ds disc' disc Hnd Hin' Hin Hn). reflexivity.
Qed.

Lemma match_deserialize_resolves_witness :
  match_deserialize_account_data
    (fun name data => match_deserialize_account_data_by_name 3 default_opts Spl ∅
       (MatchDiscriminators_from 2 [account_a; account_b] ∅) data name [])
    (MatchDiscriminators_from 2 [account_a; account_b] ∅) [1; 0; 0; 0; 0] =
  run_account_deserializer 3 default_opts Spl ∅ account_b [1; 0; 0; 0; 0] [].
Proof.
  refine (proj2 (match_deserialize_resolves 3 default_opts Spl ∅
    (MatchDiscriminators_from 2 [account_a; account_b] ∅) [1; 0; 0; 0; 0] []
    {| account := account_b; min_total_size := 5; matchers := [MBool 0] |} _ _) _).
  - discriminate.
  - vm_compute. reflexivity.
  - vm_compute. repeat constructor; set_solver.
Defined.

(** ** Snake case *)

Module HeckProofs.
Import Heck.






End HeckProofs.
